(** * JavaBench: the generation orchestrator of [inference.py]

    A shallow embedding of [inference(args)]: the resumable loop over
    (task, sample-index) pairs and its three strategies (holistic,
    independent, incremental), together with the checkpointing of the
    sample list.

    Python state is modelled by explicit state passing: a [world] holds
    the output file, the heap of list objects (the list returned by
    [get_todo_methods] is shuffled in place in the [rand] ordering), the
    position in the random source, the number of model calls issued, and
    the chronological log of calls made to the collaborators.  Exceptions
    are modelled by a sum type and are never caught, as in the source.

    The progress bar ([tqdm], [set_description]) and [logging.info] only
    report; they do not take part in the computation and are left out. *)

From Stdlib Require Import ZArith Ascii String.
From stdpp Require Import base numbers option list strings gmap.

Local Open Scope Z_scope.

(** ** Data model *)

(** One benchmark record of [args.data]; the orchestrator reads these four
    keys and nothing else. *)
Record Task := mkTask {
  task_id : string;
  code : string;
  code_context : string;
  target : string;
}.

(** An element of the list returned by [get_todo_methods]; the
    orchestrator reads the keys ["name"] and ["seq"]. *)
Record todo_method := mkTodo {
  todo_name : string;
  todo_seq : Z;
}.

(** The dictionary appended to [mediate], once per processed stub. *)
Record mediate_entry := mkMediate {
  m_name : string;
  m_seq : Z;
  m_prompt : string;
  m_completion : string;
}.

(** The dictionaries appended to [samples]: lines 71-76 build the first
    shape, lines 97-102 and 127-132 the second. *)
Inductive Sample :=
| HolisticSample (s_task_id s_target s_prompt s_completion : string)
| ComposedSample (s_task_id s_target s_completion : string)
                 (s_mediate : list mediate_entry).

Definition sample_task_id (s : Sample) : string :=
  match s with
  | HolisticSample t _ _ _ => t
  | ComposedSample t _ _ _ => t
  end.

Definition sample_target (s : Sample) : string :=
  match s with
  | HolisticSample _ t _ _ => t
  | ComposedSample _ t _ _ => t
  end.

(** [--mode] and [--incremental-mode]; [argparse] restricts both to these
    choices. *)
Inductive Mode := holistic | independent | incremental.
Inductive IncrementalMode := seq_mode | rev_mode | rand_mode.

Record Args := mkArgs {
  mode : Mode;
  incremental_mode : IncrementalMode;
  num_sample : Z;
}.

(** Exceptions raised by the collaborators.  The orchestrator has no
    [try]; whatever is raised leaves [inference]. *)
Inductive exn :=
| ParseError
| StubNotFoundError
| ExtractionError
| ModelClientError.

(** Addresses of Python list objects. *)
Abbreviation loc := nat (only parsing).

(** What a [for] statement is given to iterate: a list object itself, or
    the iterator [reversed(l)] over a list object. *)
Inductive iterable :=
| ListObject (l : loc)
| ReversedIterator (l : loc).

(** Calls that leave the orchestrator, in the order they are made. *)
Inductive call :=
| CallGetTodoMethods (src : string)
| CallRetainTodoMethod (src name : string) (sq : Z)
| CallQuery (src ctx : string)
| CallExtractCode (outputs : string)
| CallReplaceMethod (src new_code name : string) (sq : Z)
| CallWriteJsonl (samples : list Sample).

(** ** The world *)

Record world := mkWorld {
  data : list Task;                      (* records of the file [args.data] *)
  output : option (list Sample);         (* [args.output]; [None]: no such file *)
  heap : gmap loc (list todo_method);    (* list objects *)
  draws : nat;                           (* numbers taken from the random source *)
  queries : nat;                         (* model calls issued by this process *)
  calls : list call;                     (* log, oldest first *)
}.

Definition log (c : call) (w : world) : world :=
  mkWorld (data w) (output w) (heap w) (draws w) (queries w) (calls w ++ [c]).

Definition set_output (o : option (list Sample)) (w : world) : world :=
  mkWorld (data w) o (heap w) (draws w) (queries w) (calls w).

Definition set_heap (h : gmap loc (list todo_method)) (w : world) : world :=
  mkWorld (data w) (output w) h (draws w) (queries w) (calls w).

Definition set_draws (n : nat) (w : world) : world :=
  mkWorld (data w) (output w) (heap w) n (queries w) (calls w).

Definition set_queries (n : nat) (w : world) : world :=
  mkWorld (data w) (output w) (heap w) (draws w) n (calls w).

(** ** Computations that may raise *)

Definition M (A : Type) : Type := world → (exn + A) * world.

Definition ret {A} (a : A) : M A := λ w, (inr a, w).

Definition raise {A} (e : exn) : M A := λ w, (inl e, w).

Definition bind {A B} (m : M A) (k : A → M B) : M B :=
  λ w, match m w with
       | (inr a, w') => k a w'
       | (inl e, w') => (inl e, w')
       end.

Global Instance M_ret : MRet M := @ret.
Global Instance M_bind : MBind M := λ A B k m, bind m k.

(** A call to a collaborator: logged, then its result or its exception. *)
Definition invoke {A} (c : call) (r : exn + A) : M A :=
  λ w, (r, log c w).

(** [for x in xs: st = body(st, x)] with the loop variables threaded. *)
Fixpoint for_each {A S} (body : S → A → M S) (xs : list A) (st : S) : M S :=
  match xs with
  | [] => ret st
  | x :: xs' => st' ← body st x; for_each body xs' st'
  end.

(** ** Python library functions used by the orchestrator *)

(** [range(n)]: empty when [n <= 0]. *)
Definition range (n : Z) : list Z :=
  Z.of_nat <$> seq 0 (Z.to_nat n).

(** [itertools.product(xs, ys)]: the first component varies slowest. *)
Definition product {A B} (xs : list A) (ys : list B) : list (A * B) :=
  x ← xs; pair x <$> ys.

(** [itertools.islice(it, start, None)]. *)
Definition islice_from {A} (xs : list A) (start : nat) : list A :=
  drop start xs.

(** [x[i], x[j] = x[j], x[i]]: the right-hand side is read first, then
    [x[i]] and [x[j]] are stored in that order.  Out of range Python
    raises; [random.shuffle] only uses indices below [len(x)]. *)
Definition swap {A} (x : list A) (i j : nat) : list A :=
  match x !! j, x !! i with
  | Some xj, Some xi => <[j := xi]> (<[i := xj]> x)
  | _, _ => x
  end.

(** ** Collaborators

    [get_todo_methods], [retain_todo_method] and [replace_method] (of
    [app.static_analyzer.class_compose_tool]) and [extract_code] (of
    [app.util.io]) are imported by [inference.py]; the orchestrator is
    verified for arbitrary ones.  A result [inl e] is the exception [e].

    [model_client] is the backend behind [query] (lines 29-64 render the
    prompt and call the hosted or the local model): what the [n]-th model
    call of the process returns, as [(prompt, outputs)], for the given
    code and context.  [entropy] gives the raw numbers of the generator
    behind [random]. *)
Class Collaborators := {
  get_todo_methods : string → exn + list todo_method;
  retain_todo_method : string → string → Z → exn + string;
  replace_method : string → string → string → Z → exn + string;
  extract_code : string → exn + string;
  model_client : nat → string → string → exn + (string * string);
  entropy : nat → nat;
}.

(** ** A small instance of the collaborators

    A miniature source language on which the orchestrator can be run: a
    source is a string in which a character followed by [?] is a stub
    method named by that character; every other character is implemented
    text.  A source containing [!] does not parse. *)

Module Toy.

Definition name_of (c : ascii) : string := String c EmptyString.

Definition occurrences (n : string) (found : list todo_method) : Z :=
  Z.of_nat (length (filter (λ tm, todo_name tm = n) found)).

Fixpoint scan (s : string) (found : list todo_method) : list todo_method :=
  match s with
  | EmptyString => found
  | String c s' =>
      match s' with
      | String "?" rest =>
          scan rest (found ++ [mkTodo (name_of c) (occurrences (name_of c) found)])
      | _ => scan s' found
      end
  end.

Fixpoint parses (s : string) : bool :=
  match s with
  | EmptyString => true
  | String c s' => if decide (c = "!"%char) then false else parses s'
  end.

Definition get_todo_methods (src : string) : exn + list todo_method :=
  if parses src then inr (scan src []) else inl ParseError.

(** The stub [(name, k)], counting stubs of that name from the left, is
    replaced by [f] of its two characters; other stubs by [g]. *)
Fixpoint rewrite_stub (f g : string → string) (s : string) (name : string)
    (k : nat) : option string :=
  match s with
  | EmptyString => None
  | String c s' =>
      match s' with
      | String "?" rest =>
          let stub := String c (String "?" EmptyString) in
          if decide (name_of c = name) then
            match k with
            | O => Some (f stub +:+ default rest
                           (rewrite_stub g g rest name 0))
            | S k' => (λ r, g stub +:+ r) <$> rewrite_stub f g rest name k'
            end
          else (λ r, g stub +:+ r) <$> rewrite_stub f g rest name k
      | _ => String c <$> rewrite_stub f g s' name k
      end
  end.

(** The other stubs are elided from the view. *)
Definition retain_todo_method (src name : string) (sq : Z) : exn + string :=
  match rewrite_stub id (λ _, EmptyString) src name (Z.to_nat sq) with
  | Some r => inr r
  | None => inl StubNotFoundError
  end.

(** The stub's placeholder is replaced by the new text in brackets. *)
Definition replace_method (src new_code name : string) (sq : Z)
  : exn + string :=
  match rewrite_stub (λ _, name +:+ "[" +:+ new_code +:+ "]") id
                     src name (Z.to_nat sq) with
  | Some r => inr r
  | None => inl StubNotFoundError
  end.

(** Model text is usable when it is not empty. *)
Definition extract_code (outputs : string) : exn + string :=
  match outputs with
  | EmptyString => inl ExtractionError
  | _ => inr outputs
  end.

(** A model that answers its [n]-th call with the [n]-th of the given
    texts and fails once they are used up. *)
Definition model_client (answers : list string) (n : nat) (src ctx : string)
  : exn + (string * string) :=
  match answers !! n with
  | Some o => inr (ctx +:+ ":" +:+ src, o)
  | None => inl ModelClientError
  end.

(** The instance: the given model answers, and the random numbers
    0, 1, 2, ... *)
Definition collaborators (answers : list string) : Collaborators :=
  Build_Collaborators get_todo_methods retain_todo_method replace_method
    extract_code (model_client answers) id.

Definition task1 : Task := mkTask "t1" "f?g?" "ctx" "T1".
Definition task0 : Task := mkTask "t0" "done" "ctx" "T0".

Definition empty_world (tasks : list Task) : world :=
  mkWorld tasks None ∅ 0 0 [].

End Toy.

(** ** The orchestrator *)

Section Orchestrator.

Context `{!Collaborators}.

(** *** Collaborator calls *)

(** A new list object holding [x]. *)
Definition alloc_list (x : list todo_method) : M loc :=
  λ w, let l := fresh (dom (heap w)) in
       (inr l, set_heap (<[l := x]> (heap w)) w).

(** [get_todo_methods(src)] returns a new list object. *)
Definition call_get_todo_methods (src : string) : M loc :=
  todos ← invoke (CallGetTodoMethods src) (get_todo_methods src);
  alloc_list todos.

Definition call_retain_todo_method (src name : string) (sq : Z) : M string :=
  invoke (CallRetainTodoMethod src name sq) (retain_todo_method src name sq).

Definition call_extract_code (outputs : string) : M string :=
  invoke (CallExtractCode outputs) (extract_code outputs).

Definition call_replace_method (src new_code name : string) (sq : Z)
  : M string :=
  invoke (CallReplaceMethod src new_code name sq)
         (replace_method src new_code name sq).

(** [query(code, code_context)], lines 29-64. *)
Definition query (src ctx : string) : M (string * string) :=
  λ w, (model_client (queries w) src ctx,
        set_queries (S (queries w)) (log (CallQuery src ctx) w)).

(** Modelled from the spec: [write_jsonl] of [app.util.io] is not in
    the source tree.  The sample list is persisted as a full overwrite of
    the output, one record per sample, and [stream_jsonl] reads the same
    records back at startup. *)
Definition write_jsonl (samples : list Sample) : M unit :=
  λ w, (inr tt, set_output (Some samples) (log (CallWriteJsonl samples) w)).

(** Line 67: [list(stream_jsonl(args.output)) if os.path.exists(args.output)
    else []], with [stream_jsonl] reading back the records last written
    (see [write_jsonl]). *)
Definition load_samples (w : world) : list Sample :=
  default [] (output w).

(** *** Ordering of the stubs, lines 108-111 *)

(** The loop of [random.shuffle(x)]:
    [for i in reversed(range(1, len(x))): j = randbelow(i + 1); swap]. *)
Fixpoint shuffle_from (i : nat) (x : list todo_method) (d : nat)
  : list todo_method * nat :=
  match i with
  | O => (x, d)
  | S i' => let j := (entropy d `mod` (i + 1))%nat in
            shuffle_from i' (swap x i j) (S d)
  end.

Definition shuffle (x : list todo_method) (d : nat) : list todo_method * nat :=
  shuffle_from (length x - 1) x d.

(** [random.shuffle(l)] stores the shuffled content in the same list
    object. *)
Definition random_shuffle (l : loc) : M unit :=
  λ w, let '(x', d') := shuffle (default [] (heap w !! l)) (draws w) in
       (inr tt, set_draws d' (set_heap (<[l := x']> (heap w)) w)).

Definition order (im : IncrementalMode) (todo_methods : loc) : M iterable :=
  match im with
  | seq_mode => mret (ListObject todo_methods)
  | rev_mode => mret (ReversedIterator todo_methods)
  | rand_mode => random_shuffle todo_methods;; mret (ListObject todo_methods)
  end.

(** The elements a [for] statement receives.  The loop bodies below do
    not touch the list object, so the elements are read at once. *)
Definition elements_of (it : iterable) (h : gmap loc (list todo_method))
  : list todo_method :=
  match it with
  | ListObject l => default [] (h !! l)
  | ReversedIterator l => reverse (default [] (h !! l))
  end.

Definition iterate (it : iterable) : M (list todo_method) :=
  λ w, (inr (elements_of it (heap w)), w).

(** *** The three strategies *)

Definition new_mediate (tm : todo_method) (prompt outputs : string)
  : mediate_entry :=
  mkMediate (todo_name tm) (todo_seq tm) prompt outputs.

(** Lines 70-76. *)
Definition holistic_pair (task : Task) : M Sample :=
  '(prompt, outputs) ← query (code task) (code_context task);
  mret (HolisticSample (task_id task) (target task) prompt outputs).

(** Lines 84-95: one iteration of the loop of the independent mode; the
    loop variables are [result] and [mediate]. *)
Definition independent_body (task : Task)
    (st : string * list mediate_entry) (tm : todo_method)
  : M (string * list mediate_entry) :=
  let '(result, mediate) := st in
  source ← call_retain_todo_method (code task) (todo_name tm) (todo_seq tm);
  '(prompt, outputs) ← query source (code_context task);
  snippet ← call_extract_code outputs;
  result' ← call_replace_method result snippet (todo_name tm) (todo_seq tm);
  mret (result', mediate ++ [new_mediate tm prompt outputs]).

(** Lines 78-102. *)
Definition independent_pair (task : Task) : M Sample :=
  let result := code task in
  todo_methods ← call_get_todo_methods result;
  items ← iterate (ListObject todo_methods);
  '(result, mediate) ← for_each (independent_body task) items (result, []);
  mret (ComposedSample (task_id task) (target task) result mediate).

(** Lines 114-125: one iteration of the loop of the incremental mode. *)
Definition incremental_body (task : Task)
    (st : string * list mediate_entry) (tm : todo_method)
  : M (string * list mediate_entry) :=
  let '(result, mediate) := st in
  source ← call_retain_todo_method result (todo_name tm) (todo_seq tm);
  '(prompt, outputs) ← query source (code_context task);
  snippet ← call_extract_code outputs;
  result' ← call_replace_method result snippet (todo_name tm) (todo_seq tm);
  mret (result', mediate ++ [new_mediate tm prompt outputs]).

(** Lines 104-132. *)
Definition incremental_pair (im : IncrementalMode) (task : Task) : M Sample :=
  let result := code task in
  todo_methods ← call_get_todo_methods result;
  progress ← order im todo_methods;
  items ← iterate progress;
  '(result, mediate) ← for_each (incremental_body task) items (result, []);
  mret (ComposedSample (task_id task) (target task) result mediate).

(** Lines 69-132: the body of the outer loop up to the new sample. *)
Definition process_pair (a : Args) (task : Task) : M Sample :=
  match mode a with
  | holistic => holistic_pair task
  | independent => independent_pair task
  | incremental => incremental_pair (incremental_mode a) task
  end.

(** *** The outer loop, lines 66-133 *)

(** The pairs of the whole run. *)
Definition all_pairs (a : Args) (tasks : list Task) : list (Task * Z) :=
  product tasks (range (num_sample a)).

(** The pairs line 68 iterates over, given the samples found at startup. *)
Definition pending_pairs (a : Args) (w : world) : list (Task * Z) :=
  islice_from (all_pairs a (data w)) (length (load_samples w)).

(** The loop variable is the list [samples]; each iteration appends one
    sample to it and writes it out (line 133). *)
Definition pair_body (a : Args) (samples : list Sample) (p : Task * Z)
  : M (list Sample) :=
  s ← process_pair a p.1;
  let samples' := samples ++ [s] in
  write_jsonl samples';;
  mret samples'.

(** [inference(args)]; the value is that of [samples] when the loop
    ends. *)
Definition inference (a : Args) : M (list Sample) :=
  λ w, for_each (pair_body a) (pending_pairs a w) (load_samples w) w.

(** *** Observations on a run *)

(** The source, name and seq of every [retain_todo_method] call of a
    log, in order. *)
Definition retain_calls (tr : list call) : list (string * string * Z) :=
  omap (λ c, match c with
             | CallRetainTodoMethod src n sq => Some (src, n, sq)
             | _ => None
             end) tr.

(** The code and context of every model call of a log, in order. *)
Definition query_calls (tr : list call) : list (string * string) :=
  omap (λ c, match c with
             | CallQuery src ctx => Some (src, ctx)
             | _ => None
             end) tr.

(** The sources given to [get_todo_methods] in a log, in order. *)
Definition locate_calls (tr : list call) : list string :=
  omap (λ c, match c with
             | CallGetTodoMethods src => Some src
             | _ => None
             end) tr.

(** The sample lists written out in a log, in order. *)
Definition write_calls (tr : list call) : list (list Sample) :=
  omap (λ c, match c with
             | CallWriteJsonl samples => Some samples
             | _ => None
             end) tr.

Definition todo_key (tm : todo_method) : string * Z :=
  (todo_name tm, todo_seq tm).

Definition mediate_key (m : mediate_entry) : string * Z :=
  (m_name m, m_seq m).

(** The buffer obtained from [result] by splicing the extracted
    completions of the entries [ms], first entry first (lines 87 and 117
    iterated). *)
Fixpoint splice_all (result : string) (ms : list mediate_entry)
  : exn + string :=
  match ms with
  | [] => inr result
  | m :: ms' =>
      match extract_code (m_completion m) with
      | inl e => inl e
      | inr snippet =>
          match replace_method result snippet (m_name m) (m_seq m) with
          | inl e => inl e
          | inr result' => splice_all result' ms'
          end
      end
  end.

(** A stub loop that runs to its end.  [view r] is the source that is
    isolated when the buffer is [r]: the task's code in the independent
    mode, [r] itself in the incremental mode.  [stub_run view ctx q r
    items tr ms r'] : from buffer [r], with [q] model calls made before,
    the loop over [items] makes the calls [tr], appends the entries [ms]
    to [mediate] and ends with buffer [r']. *)
Inductive stub_run (view : string → string) (ctx : string)
  : nat → string → list todo_method → list call → list mediate_entry
    → string → Prop :=
| stub_run_nil q r :
    stub_run view ctx q r [] [] [] r
| stub_run_cons q r tm items source prompt outputs snippet r' tr ms final :
    retain_todo_method (view r) (todo_name tm) (todo_seq tm) = inr source →
    model_client q source ctx = inr (prompt, outputs) →
    extract_code outputs = inr snippet →
    replace_method r snippet (todo_name tm) (todo_seq tm) = inr r' →
    stub_run view ctx (S q) r' items tr ms final →
    stub_run view ctx q r (tm :: items)
      (CallRetainTodoMethod (view r) (todo_name tm) (todo_seq tm)
         :: CallQuery source ctx
         :: CallExtractCode outputs
         :: CallReplaceMethod r snippet (todo_name tm) (todo_seq tm)
         :: tr)
      (new_mediate tm prompt outputs :: ms)
      final.

(** One iteration of either stub loop, with the isolated source given by
    [view]. *)
Definition stub_body (view : string → string) (task : Task)
    (st : string * list mediate_entry) (tm : todo_method)
  : M (string * list mediate_entry) :=
  let '(result, mediate) := st in
  source ← call_retain_todo_method (view result) (todo_name tm) (todo_seq tm);
  '(prompt, outputs) ← query source (code_context task);
  snippet ← call_extract_code outputs;
  result' ← call_replace_method result snippet (todo_name tm) (todo_seq tm);
  mret (result', mediate ++ [new_mediate tm prompt outputs]).

(** Calls a stub loop may make: no locating and no writing, and every
    isolation on a source satisfying [ok]. *)
Definition loop_call (ok : string → Prop) (c : call) : Prop :=
  match c with
  | CallGetTodoMethods _ | CallWriteJsonl _ => False
  | CallRetainTodoMethod src _ _ => ok src
  | _ => True
  end.

(** What a stub loop leaves alone, and what it adds. *)
Definition loop_frame (w w' : world) (tr : list call) (n : nat) : Prop :=
  data w' = data w ∧ output w' = output w ∧ heap w' = heap w ∧
  draws w' = draws w ∧ queries w' = (queries w + n)%nat ∧
  calls w' = calls w ++ tr.

(** The order in which the incremental loop visits the located stubs
    [todos] when [d] random numbers have been drawn before. *)
Definition traversal (im : IncrementalMode) (todos : list todo_method)
    (d : nat) : list todo_method :=
  match im with
  | seq_mode => todos
  | rev_mode => reverse todos
  | rand_mode => (shuffle todos d).1
  end.

(** The world after [src] was located with result [todos] and the stubs
    were put in order: the call is logged, the list object exists, and in
    the [rand] mode it holds the shuffled list. *)
Definition located (im : IncrementalMode) (src : string)
    (todos : list todo_method) (w : world) : world :=
  let w1 := log (CallGetTodoMethods src) w in
  let l := fresh (dom (heap w1)) in
  let w2 := set_heap (<[l := todos]> (heap w1)) w1 in
  match im with
  | rand_mode =>
      set_draws (shuffle todos (draws w)).2
        (set_heap (<[l := (shuffle todos (draws w)).1]> (heap w2)) w2)
  | _ => w2
  end.

(** Both per-stub strategies at once: locate on the task's code, order,
    loop with [stub_body view], build the sample.  The independent mode is
    the case of the task's code as view and no reordering, the incremental
    mode the case of the buffer as view. *)
Definition stub_pair (view : string → string) (im : IncrementalMode)
    (task : Task) : M Sample :=
  let result := code task in
  todo_methods ← call_get_todo_methods result;
  progress ← order im todo_methods;
  items ← iterate progress;
  '(result, mediate) ← for_each (stub_body view task) items (result, []);
  mret (ComposedSample (task_id task) (target task) result mediate).

(** A log in which the stubs are located again for every iteration: one
    locating call per isolation, made on the source that iteration
    isolates. *)
Definition relocated_every_iteration (tr : list call) : Prop :=
  locate_calls tr = (λ c, c.1.1) <$> retain_calls tr.

(** The log of a run of the outer loop that starts with [samples] in
    memory: for each completed pair its own calls [cs], none of them a
    write, then one write of the whole list extended by the new sample.
    [final] is the list last written, or [samples] if none was. *)
Inductive checkpoint_log : list Sample → list call → list Sample → Prop :=
| checkpoint_none samples :
    checkpoint_log samples [] samples
| checkpoint_pair samples cs s tr final :
    write_calls cs = [] →
    checkpoint_log (samples ++ [s]) tr final →
    checkpoint_log samples (cs ++ CallWriteJsonl (samples ++ [s]) :: tr) final.

(** The sample of pair [p] is recognisable by the task's id and target. *)
Definition sample_of (p : Task * Z) (s : Sample) : Prop :=
  sample_task_id s = task_id p.1 ∧ sample_target s = target p.1.

(** *** Further observations *)

(** The sources given to [extract_code] in a log, in order. *)
Definition extract_calls (tr : list call) : list string :=
  omap (λ c, match c with
             | CallExtractCode outputs => Some outputs
             | _ => None
             end) tr.

(** The sources given to [replace_method] in a log, in order. *)
Definition replace_calls (tr : list call) : list string :=
  omap (λ c, match c with
             | CallReplaceMethod src _ _ _ => Some src
             | _ => None
             end) tr.

(** The world after [samples] was written out (line 133). *)
Definition written (samples : list Sample) (w : world) : world :=
  set_output (Some samples) (log (CallWriteJsonl samples) w).

(** An outer loop that runs to its end.  [pairs_run a pairs samples w
    final w'] : from the list [samples] and the world [w], every pair of
    [pairs] completes in turn and its sample is appended and written; the
    loop ends with the list [final] in the world [w']. *)
Inductive pairs_run (a : Args)
  : list (Task * Z) → list Sample → world → list Sample → world → Prop :=
| pairs_run_nil samples w :
    pairs_run a [] samples w samples w
| pairs_run_cons p pairs samples w s w1 final w' :
    process_pair a p.1 w = (inr s, w1) →
    pairs_run a pairs (samples ++ [s]) (written (samples ++ [s]) w1) final w' →
    pairs_run a (p :: pairs) samples w final w'.

(** The number of stubs the locator finds in the code of a task; none
    when it raises. *)
Definition stub_count (task : Task) : nat :=
  match get_todo_methods (code task) with
  | inr todos => length todos
  | inl _ => 0%nat
  end.

(** The model calls a completed pair of [task] makes. *)
Definition pair_cost (a : Args) (task : Task) : nat :=
  match mode a with
  | holistic => 1%nat
  | _ => stub_count task
  end.

(** The source that lines 85 and 115 isolate when the buffer is [r]. *)
Definition view_of (a : Args) (task : Task) : string → string :=
  match mode a with
  | incremental => id
  | _ => λ _, code task
  end.

(** The order in which the stub loop of mode [mode a] visits the located
    stubs: line 83 iterates the list as it is. *)
Definition visit_order (a : Args) (todos : list todo_method) (d : nat)
  : list todo_method :=
  match mode a with
  | incremental => traversal (incremental_mode a) todos d
  | _ => todos
  end.

(** An iteration of a stub loop that raises.  [body_failure view ctx q r
    tm e tr n] : with buffer [r] and [q] model calls made before, the
    iteration for [tm] raises [e] after making the calls [tr], [n] of which
    are model calls. *)
Inductive body_failure (view : string → string) (ctx : string) (q : nat)
    (r : string) (tm : todo_method) : exn → list call → nat → Prop :=
| fail_retain e :
    retain_todo_method (view r) (todo_name tm) (todo_seq tm) = inl e →
    body_failure view ctx q r tm e
      [CallRetainTodoMethod (view r) (todo_name tm) (todo_seq tm)] 0
| fail_query source e :
    retain_todo_method (view r) (todo_name tm) (todo_seq tm) = inr source →
    model_client q source ctx = inl e →
    body_failure view ctx q r tm e
      [CallRetainTodoMethod (view r) (todo_name tm) (todo_seq tm);
       CallQuery source ctx] 1
| fail_extract source prompt outputs e :
    retain_todo_method (view r) (todo_name tm) (todo_seq tm) = inr source →
    model_client q source ctx = inr (prompt, outputs) →
    extract_code outputs = inl e →
    body_failure view ctx q r tm e
      [CallRetainTodoMethod (view r) (todo_name tm) (todo_seq tm);
       CallQuery source ctx;
       CallExtractCode outputs] 1
| fail_replace source prompt outputs snippet e :
    retain_todo_method (view r) (todo_name tm) (todo_seq tm) = inr source →
    model_client q source ctx = inr (prompt, outputs) →
    extract_code outputs = inr snippet →
    replace_method r snippet (todo_name tm) (todo_seq tm) = inl e →
    body_failure view ctx q r tm e
      [CallRetainTodoMethod (view r) (todo_name tm) (todo_seq tm);
       CallQuery source ctx;
       CallExtractCode outputs;
       CallReplaceMethod r snippet (todo_name tm) (todo_seq tm)] 1.

(** Calls that are model calls or writes. *)
Definition model_or_write (c : call) : Prop :=
  match c with
  | CallQuery _ _ | CallWriteJsonl _ => True
  | _ => False
  end.

(** Two worlds that differ at most in the output file and in the log. *)
Definition same_inputs (w1 w2 : world) : Prop :=
  data w1 = data w2 ∧ heap w1 = heap w2 ∧
  draws w1 = draws w2 ∧ queries w1 = queries w2.

(** A computation that reads neither the output file nor the log: from
    two such worlds it gives the same result, adds the same calls and
    leaves two such worlds. *)
Definition oblivious {A} (m : M A) : Prop :=
  ∀ w1 w2, same_inputs w1 w2 →
    (m w1).1 = (m w2).1 ∧
    same_inputs (m w1).2 (m w2).2 ∧
    output (m w1).2 = output w1 ∧ output (m w2).2 = output w2 ∧
    ∃ tr, calls (m w1).2 = calls w1 ++ tr ∧ calls (m w2).2 = calls w2 ++ tr.

End Orchestrator.

(** ** Runs of the small instance *)

Module ToyRuns.

(** A model with three answers. *)
Definition toy : Collaborators := Toy.collaborators ["A"; "B"; "C"].

Definition stub_f : todo_method := mkTodo "f" 0.
Definition stub_g : todo_method := mkTodo "g" 0.
Definition stub_h : todo_method := mkTodo "h" 0.

(** A world with one list object, at address 0. *)
Definition list_world : world :=
  mkWorld [] None {[ 0%nat := [stub_f; stub_g; stub_h] ]} 0 0 [].

(** One task with two stubs, nothing persisted. *)
Definition w_one : world := Toy.empty_world [Toy.task1].

Definition sample_rev : Sample :=
  ComposedSample "t1" "T1" "f[B]g[A]"
    [mkMediate "g" 0 "ctx:g?" "A"; mkMediate "f" 0 "ctx:f?g[A]" "B"].

(** A run that reaches its end: two tasks, one sample each, two model
    calls. *)
Definition a_full : Args := mkArgs independent seq_mode 1.
Definition w_full : world := Toy.empty_world [Toy.task1; Toy.task0].
Definition samples_full : list Sample :=
  [ComposedSample "t1" "T1" "f[A]g[B]"
     [mkMediate "f" 0 "ctx:f?g?" "A"; mkMediate "g" 0 "ctx:g?" "B"];
   ComposedSample "t0" "T0" "done" []].

(** A run that aborts: the fourth pair needs a fourth and a fifth model
    answer. *)
Definition a_abort : Args := mkArgs incremental seq_mode 2.
Definition w_abort : world := Toy.empty_world [Toy.task0; Toy.task1].

(** Further runs. *)

Definition a_holistic : Args := mkArgs holistic seq_mode 1.

(** No sample asked for. *)
Definition a_none : Args := mkArgs incremental rand_mode 0.

(** Two model calls were made before: one answer is left. *)
Definition w_late : world := mkWorld [Toy.task1] None ∅ 0 2 [].

(** One model call was made before. *)
Definition w_queried : world := mkWorld [Toy.task1; Toy.task0] None ∅ 0 1 [].

(** Three samples are persisted, for two tasks and two samples each. *)
Definition w_three : world :=
  mkWorld [Toy.task0; Toy.task1]
    (Some [ComposedSample "t0" "T0" "done" [];
           ComposedSample "t0" "T0" "done" [];
           ComposedSample "t1" "T1" "f[A]g[B]" []])
    ∅ 0 0 [].

(** A task with one stub. *)
Definition task_single : Task := mkTask "t2" "a f? b" "ctx" "T2".

(** Two worlds with one persisted sample each, not the same one. *)
Definition w_kept1 : world :=
  mkWorld [Toy.task1; Toy.task0]
    (Some [ComposedSample "t1" "T1" "f[X]g[Y]" []]) ∅ 0 0 [].
Definition w_kept2 : world :=
  mkWorld [Toy.task1; Toy.task0]
    (Some [HolisticSample "t9" "T9" "p" "o"]) ∅ 0 0
    [CallGetTodoMethods "f?g?"].

End ToyRuns.

(** ** Facts *)

Section Facts.

Context `{!Collaborators}.

(** *** The stub loops *)

Lemma for_each_cons {A S} (body : S → A → M S) x xs st w :
  for_each body (x :: xs) st w =
    match body st x w with
    | (inr st', w') => for_each body xs st' w'
    | (inl e, w') => (inl e, w')
    end.
Proof. reflexivity. Qed.

Lemma independent_body_view task :
  independent_body task = stub_body (λ _, code task) task.
Proof. reflexivity. Qed.

Lemma incremental_body_view task :
  incremental_body task = stub_body id task.
Proof. reflexivity. Qed.

Lemma loop_frame_refl w : loop_frame w w [] 0.
Proof.
  unfold loop_frame. rewrite Nat.add_0_r, app_nil_r. tauto.
Qed.

Lemma loop_frame_trans w1 w2 w3 tr1 tr2 n1 n2 :
  loop_frame w1 w2 tr1 n1 → loop_frame w2 w3 tr2 n2 →
  loop_frame w1 w3 (tr1 ++ tr2) (n1 + n2).
Proof.
  intros (Hd1 & Ho1 & Hh1 & Hr1 & Hq1 & Hc1) (Hd2 & Ho2 & Hh2 & Hr2 & Hq2 & Hc2).
  unfold loop_frame.
  rewrite Hd2, Ho2, Hh2, Hr2, Hq2, Hc2, Hd1, Ho1, Hh1, Hr1, Hq1, Hc1.
  rewrite app_assoc, Nat.add_assoc. tauto.
Qed.

Ltac run_M :=
  unfold mbind, M_bind, mret, M_ret, bind, ret, invoke,
    call_retain_todo_method, call_extract_code, call_replace_method,
    query in *; simpl in *.

Ltac loop_calls :=
  repeat (apply Forall_cons_2; [simpl; auto|]); apply Forall_nil_2.

(** One iteration that completes. *)
Lemma stub_body_inr view task r med tm w r' med' w' :
  stub_body view task (r, med) tm w = (inr (r', med'), w') →
  ∃ source prompt outputs snippet,
    retain_todo_method (view r) (todo_name tm) (todo_seq tm) = inr source ∧
    model_client (queries w) source (code_context task)
      = inr (prompt, outputs) ∧
    extract_code outputs = inr snippet ∧
    replace_method r snippet (todo_name tm) (todo_seq tm) = inr r' ∧
    med' = med ++ [new_mediate tm prompt outputs] ∧
    loop_frame w w'
      [CallRetainTodoMethod (view r) (todo_name tm) (todo_seq tm);
       CallQuery source (code_context task);
       CallExtractCode outputs;
       CallReplaceMethod r snippet (todo_name tm) (todo_seq tm)] 1.
Proof.
  unfold stub_body. run_M.
  destruct (retain_todo_method _ _ _) as [e|source] eqn:Hret; [done|].
  destruct (model_client _ _ _) as [e|[prompt outputs]] eqn:Hq; [done|].
  destruct (extract_code _) as [e|snippet] eqn:Hex; [done|].
  destruct (replace_method _ _ _ _) as [e|r2] eqn:Hrep; [done|].
  intros [= <- <- <-].
  exists source, prompt, outputs, snippet.
  repeat split; try done; simpl.
  - lia.
  - by rewrite <- !app_assoc.
Qed.

(** One iteration, whether it completes or raises. *)
Lemma stub_body_calls (ok : string → Prop) view task st tm w :
  (∀ r, ok (view r)) →
  ∃ tr n, loop_frame w (stub_body view task st tm w).2 tr n ∧
          Forall (loop_call ok) tr.
Proof.
  intros Hok. destruct st as [r med]. unfold stub_body. run_M.
  destruct (retain_todo_method _ _ _) as [e|source]; simpl.
  { exists [CallRetainTodoMethod (view r) (todo_name tm) (todo_seq tm)], 0%nat.
    split; [|loop_calls].
    repeat split; simpl; lia. }
  destruct (model_client _ _ _) as [e|[prompt outputs]]; simpl.
  { eexists [_; _], 1%nat. split.
    - repeat split; simpl; [lia|by rewrite <- !app_assoc].
    - loop_calls. }
  destruct (extract_code _) as [e|snippet]; simpl.
  { eexists [_; _; _], 1%nat. split.
    - repeat split; simpl; [lia|by rewrite <- !app_assoc].
    - loop_calls. }
  destruct (replace_method _ _ _ _) as [e|r2]; simpl.
  all: eexists [_; _; _; _], 1%nat; split;
    [repeat split; simpl; [lia|by rewrite <- !app_assoc]
    |loop_calls].
Qed.

(** A loop that completes is a [stub_run]. *)
Lemma stub_loop_inr view task items : ∀ r med w r' med' w',
  for_each (stub_body view task) items (r, med) w = (inr (r', med'), w') →
  ∃ tr ms,
    stub_run view (code_context task) (queries w) r items tr ms r' ∧
    med' = med ++ ms ∧
    loop_frame w w' tr (length items).
Proof.
  induction items as [|tm items IH]; intros r med w r' med' w' Hrun.
  - simpl in Hrun. injection Hrun as <- <- <-.
    exists [], []. split; [constructor|]. split; [by rewrite app_nil_r|].
    apply loop_frame_refl.
  - rewrite for_each_cons in Hrun.
    destruct (stub_body view task (r, med) tm w) as [[e|[r1 med1]] w1] eqn:Hb;
      [done|].
    apply stub_body_inr in Hb
      as (source & prompt & outputs & snippet & Hret & Hq & Hex & Hrep & -> & Hf).
    apply IH in Hrun as (tr & ms & Hsr & -> & Hf').
    assert (Hq1 : queries w1 = S (queries w)).
    { destruct Hf as (_ & _ & _ & _ & -> & _). lia. }
    rewrite Hq1 in Hsr.
    eexists _, _. split; [|split].
    + eapply stub_run_cons; eauto.
    + by rewrite <- app_assoc.
    + apply (loop_frame_trans _ _ _ _ _ _ _ Hf Hf').
Qed.

(** A [stub_run] is a loop that completes. *)
Lemma stub_run_loop view task q r items tr ms r' :
  stub_run view (code_context task) q r items tr ms r' →
  ∀ med w, queries w = q →
    ∃ w', for_each (stub_body view task) items (r, med) w
            = (inr (r', med ++ ms), w') ∧
          loop_frame w w' tr (length items).
Proof.
  induction 1 as [q r|q r tm items source prompt outputs snippet r1 tr ms final
                    Hret Hq Hex Hrep Hrun IH]; intros med w Hw.
  - exists w. simpl. unfold ret. rewrite app_nil_r.
    split; [done|apply loop_frame_refl].
  - rewrite for_each_cons.
    destruct (stub_body view task (r, med) tm w) as [res w1] eqn:Hb.
    assert (res = inr (r1, med ++ [new_mediate tm prompt outputs]) ∧
            loop_frame w w1
              [CallRetainTodoMethod (view r) (todo_name tm) (todo_seq tm);
               CallQuery source (code_context task);
               CallExtractCode outputs;
               CallReplaceMethod r snippet (todo_name tm) (todo_seq tm)] 1)
      as [-> Hf].
    { revert Hb. unfold stub_body. run_M.
      rewrite Hret, Hw, Hq, Hex, Hrep. intros [= <- <-].
      split; [done|]. repeat split; simpl; [lia|by rewrite <- !app_assoc]. }
    destruct (IH (med ++ [new_mediate tm prompt outputs]) w1) as (w' & Hl & Hf').
    { destruct Hf as (_ & _ & _ & _ & -> & _). lia. }
    exists w'. rewrite Hl, <- app_assoc. split; [done|].
    apply (loop_frame_trans _ _ _ _ _ _ _ Hf Hf').
Qed.

(** Any loop, completed or not: it only adds loop calls. *)
Lemma stub_loop_calls (ok : string → Prop) view task items :
  (∀ r, ok (view r)) →
  ∀ st w, ∃ tr n,
    loop_frame w (for_each (stub_body view task) items st w).2 tr n ∧
    Forall (loop_call ok) tr.
Proof.
  intros Hok. induction items as [|tm items IH]; intros st w.
  - exists [], 0%nat. split; [apply loop_frame_refl|constructor].
  - rewrite for_each_cons.
    destruct (stub_body_calls ok view task st tm w Hok) as (tr1 & n1 & Hf1 & Hc1).
    destruct (stub_body view task st tm w) as [[e|st1] w1]; simpl in *.
    + by exists tr1, n1.
    + destruct (IH st1 w1) as (tr2 & n2 & Hf2 & Hc2).
      exists (tr1 ++ tr2), (n1 + n2)%nat. split.
      * apply (loop_frame_trans _ _ _ _ _ _ _ Hf1 Hf2).
      * by apply Forall_app.
Qed.

(** *** Consequences of a completed stub loop *)

Lemma stub_run_keys view ctx q r items tr ms r' :
  stub_run view ctx q r items tr ms r' →
  mediate_key <$> ms = todo_key <$> items.
Proof. induction 1; [done|]. simpl. by f_equal. Qed.

Lemma stub_run_length view ctx q r items tr ms r' :
  stub_run view ctx q r items tr ms r' → length ms = length items.
Proof. induction 1; simpl; congruence. Qed.

Lemma stub_run_splice_all view ctx q r items tr ms r' :
  stub_run view ctx q r items tr ms r' → splice_all r ms = inr r'.
Proof.
  induction 1 as [|q r tm items source prompt outputs snippet r1 tr ms final
                    Hret Hq Hex Hrep Hrun IH]; [done|].
  simpl. by rewrite Hex, Hrep.
Qed.

Lemma stub_run_no_locate view ctx q r items tr ms r' :
  stub_run view ctx q r items tr ms r' → locate_calls tr = [].
Proof. induction 1; done. Qed.

Lemma stub_run_no_write view ctx q r items tr ms r' :
  stub_run view ctx q r items tr ms r' → write_calls tr = [].
Proof. induction 1; done. Qed.

(** The [i]-th isolation is made on the view of the buffer that holds the
    first [i] completions. *)
Lemma stub_run_retain view ctx q r items tr ms r' :
  stub_run view ctx q r items tr ms r' →
  length (retain_calls tr) = length items ∧
  ∀ i m, ms !! i = Some m →
    ∃ buffer, splice_all r (take i ms) = inr buffer ∧
              retain_calls tr !! i = Some (view buffer, m_name m, m_seq m).
Proof.
  induction 1 as [|q r tm items source prompt outputs snippet r1 tr ms final
                    Hret Hq Hex Hrep Hrun [IHlen IH]]; [done|].
  split; [simpl; by rewrite IHlen|].
  intros [|i] m Hm; simpl in *.
  - injection Hm as <-. by exists r.
  - rewrite Hex, Hrep. by apply IH.
Qed.

(** The [i]-th entry records what the [i]-th model call of the loop
    returned, and that call was made on the isolated source. *)
Lemma stub_run_query view ctx q r items tr ms r' :
  stub_run view ctx q r items tr ms r' →
  length (query_calls tr) = length items ∧
  ∀ i m, ms !! i = Some m →
    ∃ src source sq,
      retain_calls tr !! i = Some (src, m_name m, sq) ∧
      retain_todo_method src (m_name m) (m_seq m) = inr source ∧
      query_calls tr !! i = Some (source, ctx) ∧
      model_client (q + i) source ctx = inr (m_prompt m, m_completion m).
Proof.
  induction 1 as [|q r tm items source prompt outputs snippet r1 tr ms final
                    Hret Hq Hex Hrep Hrun [IHlen IH]]; [done|].
  split; [simpl; by rewrite IHlen|].
  intros [|i] m Hm; simpl in *.
  - injection Hm as <-. exists (view r), source, (todo_seq tm).
    rewrite Nat.add_0_r. by simpl.
  - destruct (IH i m Hm) as (src & source' & sq & ? & ? & ? & Hmc).
    exists src, source', sq. repeat split; try done.
    by replace (q + S i)%nat with (S q + i)%nat by lia.
Qed.

(** Isolations are made for the items, in their order. *)
Lemma stub_run_retain_keys view ctx q r items tr ms r' :
  stub_run view ctx q r items tr ms r' →
  (λ c, (c.1.2, c.2)) <$> retain_calls tr = todo_key <$> items.
Proof. induction 1; [done|]. simpl. by f_equal. Qed.

(** *** Ordering *)

Lemma swap_Permutation (x : list todo_method) i j : swap x i j ≡ₚ x.
Proof.
  unfold swap.
  destruct (x !! j) as [xj|] eqn:Hj; [|done].
  destruct (x !! i) as [xi|] eqn:Hi; [|done].
  by apply Permutation_insert_swap.
Qed.

Lemma shuffle_from_Permutation i : ∀ x d, (shuffle_from i x d).1 ≡ₚ x.
Proof.
  induction i as [|i IH]; intros x d; [done|].
  simpl. rewrite IH. apply swap_Permutation.
Qed.

Lemma shuffle_Permutation x d : (shuffle x d).1 ≡ₚ x.
Proof. apply shuffle_from_Permutation. Qed.

Lemma traversal_Permutation im todos d : traversal im todos d ≡ₚ todos.
Proof.
  destruct im; simpl.
  - done.
  - apply reverse_Permutation.
  - apply shuffle_Permutation.
Qed.

(** Locating, ordering and reading the stubs of a fresh list object. *)
Lemma locate_order_iterate im src w :
  (l ← call_get_todo_methods src; p ← order im l; iterate p) w =
    match get_todo_methods src with
    | inl e => (inl e, log (CallGetTodoMethods src) w)
    | inr todos => (inr (traversal im todos (draws w)), located im src todos w)
    end.
Proof.
  unfold call_get_todo_methods, mbind, M_bind, bind, invoke, alloc_list, located.
  destruct (get_todo_methods src) as [e|todos]; [done|].
  destruct im; simpl; unfold iterate, elements_of; simpl.
  - by rewrite lookup_insert_eq.
  - by rewrite lookup_insert_eq.
  - unfold random_shuffle, mbind, M_bind, bind, mret, M_ret, ret. simpl.
    rewrite lookup_insert_eq. simpl.
    destruct (shuffle todos (draws w)) as [x' d'] eqn:Hsh. simpl.
    by rewrite lookup_insert_eq.
Qed.

Lemma located_frame im src todos w :
  data (located im src todos w) = data w ∧
  output (located im src todos w) = output w ∧
  queries (located im src todos w) = queries w ∧
  calls (located im src todos w) = calls w ++ [CallGetTodoMethods src].
Proof. by destruct im. Qed.

(** *** One pair *)

Lemma independent_pair_view task :
  independent_pair task = stub_pair (λ _, code task) seq_mode task.
Proof. reflexivity. Qed.

Lemma incremental_pair_view im task :
  incremental_pair im task = stub_pair id im task.
Proof. reflexivity. Qed.

Lemma stub_pair_unfold view im task w :
  stub_pair view im task w =
    match (l ← call_get_todo_methods (code task); p ← order im l; iterate p) w with
    | (inl e, w1) => (inl e, w1)
    | (inr items, w1) =>
        match for_each (stub_body view task) items (code task, []) w1 with
        | (inl e, w2) => (inl e, w2)
        | (inr (result, mediate), w2) =>
            (inr (ComposedSample (task_id task) (target task) result mediate), w2)
        end
    end.
Proof.
  unfold stub_pair, call_get_todo_methods, alloc_list, invoke.
  unfold mbind, M_bind, bind.
  destruct (get_todo_methods (code task)) as [e|todos]; [done|].
  destruct im; simpl; unfold mbind, M_bind, bind, random_shuffle; simpl.
  3: destruct (shuffle _ _) as [x' d']; simpl.
  all: match goal with
       | |- context [for_each ?b ?items ?st ?w1] =>
           by destruct (for_each b items st w1) as [[e|[r m]] w2]
       end.
Qed.

(** A per-stub pair that completes. *)
Lemma stub_pair_inr view im task w s w' :
  stub_pair view im task w = (inr s, w') →
  ∃ todos tr ms r',
    get_todo_methods (code task) = inr todos ∧
    stub_run view (code_context task) (queries w) (code task)
      (traversal im todos (draws w)) tr ms r' ∧
    s = ComposedSample (task_id task) (target task) r' ms ∧
    data w' = data w ∧ output w' = output w ∧
    queries w' = (queries w + length todos)%nat ∧
    calls w' = calls w ++ CallGetTodoMethods (code task) :: tr.
Proof.
  rewrite stub_pair_unfold, locate_order_iterate.
  destruct (get_todo_methods (code task)) as [e|todos] eqn:Hloc; [done|].
  destruct (for_each (stub_body view task) (traversal im todos (draws w))
              (code task, []) (located im (code task) todos w))
    as [[e|[r m]] w2] eqn:Hloop; [done|].
  intros [= <- <-].
  apply stub_loop_inr in Hloop as (tr & ms & Hrun & -> & Hf).
  destruct Hf as (Hd & Ho & _ & _ & Hq & Hc).
  destruct (located_frame im (code task) todos w) as (Hd0 & Ho0 & Hq0 & Hc0).
  rewrite Hq0 in Hrun.
  exists todos, tr, ms, r. split; [done|].
  assert (Hlen : length (traversal im todos (draws w)) = length todos)
    by apply Permutation_length, traversal_Permutation.
  rewrite Hlen in Hq.
  rewrite Hd, Ho, Hq, Hc, Hd0, Ho0, Hq0, Hc0, <- app_assoc. done.
Qed.

(** A per-stub pair, completed or not: one locating call on the task's
    code, then loop calls only; the files are not touched. *)
Lemma stub_pair_calls (ok : string → Prop) view im task w :
  (∀ r, ok (view r)) →
  ∃ tr, data (stub_pair view im task w).2 = data w ∧
        output (stub_pair view im task w).2 = output w ∧
        calls (stub_pair view im task w).2
          = calls w ++ CallGetTodoMethods (code task) :: tr ∧
        Forall (loop_call ok) tr.
Proof.
  intros Hok. rewrite stub_pair_unfold, locate_order_iterate.
  destruct (get_todo_methods (code task)) as [e|todos] eqn:Hloc.
  { exists []. simpl. repeat split; constructor. }
  destruct (stub_loop_calls ok view task (traversal im todos (draws w)) Hok
              (code task, []) (located im (code task) todos w))
    as (tr & n & Hf & Hcalls).
  destruct (located_frame im (code task) todos w) as (Hd0 & Ho0 & Hq0 & Hc0).
  destruct (for_each (stub_body view task) (traversal im todos (draws w))
              (code task, []) (located im (code task) todos w))
    as [[e|[r m]] w2]; simpl in *;
    destruct Hf as (Hd & Ho & _ & _ & _ & Hc);
    exists tr; rewrite Hd, Ho, Hc, Hd0, Ho0, Hc0, <- app_assoc; done.
Qed.

Lemma loop_call_no_write ok tr :
  Forall (loop_call ok) tr → write_calls tr = [].
Proof.
  induction 1 as [|c tr Hc _ IH]; [done|].
  destruct c; simpl in *; done.
Qed.

Lemma loop_call_no_locate ok tr :
  Forall (loop_call ok) tr → locate_calls tr = [].
Proof.
  induction 1 as [|c tr Hc _ IH]; [done|].
  destruct c; simpl in *; done.
Qed.


(** Any pair, completed or not: the files are not touched and nothing is
    written. *)
Lemma process_pair_frame a task w :
  ∃ tr, data (process_pair a task w).2 = data w ∧
        output (process_pair a task w).2 = output w ∧
        calls (process_pair a task w).2 = calls w ++ tr ∧
        write_calls tr = [].
Proof.
  unfold process_pair. destruct (mode a).
  - unfold holistic_pair, mbind, M_bind, bind, query.
    exists [CallQuery (code task) (code_context task)].
    by destruct (model_client _ _ _) as [e|[prompt outputs]].
  - rewrite independent_pair_view.
    destruct (stub_pair_calls (λ _, True) (λ _, code task) seq_mode task w)
      as (tr & Hd & Ho & Hc & Hall); [done|].
    eexists. repeat split; [done..|].
    simpl. by apply loop_call_no_write in Hall.
  - rewrite incremental_pair_view.
    destruct (stub_pair_calls (λ _, True) id (incremental_mode a) task w)
      as (tr & Hd & Ho & Hc & Hall); [done|].
    eexists. repeat split; [done..|].
    simpl. by apply loop_call_no_write in Hall.
Qed.

(** The sample of a pair carries the id and the target of its task. *)
Lemma process_pair_sample_of a task i w s w' :
  process_pair a task w = (inr s, w') → sample_of (task, i) s.
Proof.
  unfold process_pair. destruct (mode a).
  - unfold holistic_pair, mbind, M_bind, bind, query.
    destruct (model_client _ _ _) as [e|[prompt outputs]]; [done|].
    by intros [= <- <-].
  - rewrite independent_pair_view.
    intros (? & ? & ? & ? & _ & _ & -> & _)%stub_pair_inr. done.
  - rewrite incremental_pair_view.
    intros (? & ? & ? & ? & _ & _ & -> & _)%stub_pair_inr. done.
Qed.

(** *** The outer loop *)

Lemma pair_body_unfold a samples p w :
  pair_body a samples p w =
    match process_pair a p.1 w with
    | (inl e, w1) => (inl e, w1)
    | (inr s, w1) =>
        (inr (samples ++ [s]),
         set_output (Some (samples ++ [s]))
           (log (CallWriteJsonl (samples ++ [s])) w1))
    end.
Proof.
  unfold pair_body, mbind, M_bind, bind.
  by destruct (process_pair a p.1 w) as [[e|s] w1].
Qed.

(** The outer loop from [samples] over [pairs]: the pairs are completed
    from the left, each one extends the written list by its sample; a pair
    that raises ends the run with what was written before it. *)
Lemma outer_loop a pairs : ∀ samples w,
  ∃ new tr rest,
    checkpoint_log samples tr (samples ++ new) ∧
    calls (for_each (pair_body a) pairs samples w).2 = calls w ++ tr ++ rest ∧
    write_calls rest = [] ∧
    data (for_each (pair_body a) pairs samples w).2 = data w ∧
    output (for_each (pair_body a) pairs samples w).2
      = match new with [] => output w | _ => Some (samples ++ new) end ∧
    Forall2 sample_of (take (length new) pairs) new ∧
    match (for_each (pair_body a) pairs samples w).1 with
    | inr final =>
        final = samples ++ new ∧ length new = length pairs ∧ rest = []
    | inl e =>
        ∃ p later wm,
          drop (length new) pairs = p :: later ∧
          process_pair a p.1 wm
            = (inl e, (for_each (pair_body a) pairs samples w).2) ∧
          output wm = output (for_each (pair_body a) pairs samples w).2 ∧
          calls wm = calls w ++ tr
    end.
Proof.
  induction pairs as [|p pairs IH]; intros samples w.
  - exists [], [], []. simpl. rewrite !app_nil_r.
    repeat split; constructor.
  - rewrite for_each_cons, pair_body_unfold.
    destruct (process_pair_frame a p.1 w) as (cs & Hd & Ho & Hc & Hnw).
    destruct (process_pair a p.1 w) as [[e|s] w1] eqn:Hp; simpl in Hd, Ho, Hc.
    + exists [], [], cs. simpl. rewrite !app_nil_r.
      repeat split; try done; try constructor.
      by exists p, pairs, w.
    + set (w2 := set_output (Some (samples ++ [s]))
                   (log (CallWriteJsonl (samples ++ [s])) w1)).
      destruct (IH (samples ++ [s]) w2)
        as (new & tr & rest & Hlog & Hcalls & Hrest & Hdata & Hout & Hall & Hres).
      exists (s :: new), (cs ++ CallWriteJsonl (samples ++ [s]) :: tr), rest.
      rewrite <- app_assoc in Hlog. simpl in Hlog.
      split; [by apply checkpoint_pair|].
      split; [rewrite Hcalls; simpl; rewrite Hc, <- !app_assoc; done|].
      split; [done|].
      split; [rewrite Hdata; done|].
      split.
      { rewrite Hout. destruct new; simpl; [done|].
        by rewrite <- app_assoc. }
      split.
      { simpl. constructor; [|done].
        destruct p as [task i]. by eapply process_pair_sample_of. }
      destruct (for_each (pair_body a) pairs (samples ++ [s]) w2).1 as [e|final].
      * destruct Hres as (p' & later & wm & Hdrop & Hproc & Howm & Hcwm).
        exists p', later, wm. simpl. repeat split; try done.
        rewrite Hcwm. simpl. by rewrite Hc, <- !app_assoc.
      * destruct Hres as (-> & Hlen & ->).
        rewrite <- app_assoc. simpl. by rewrite Hlen.
Qed.

(** ** The claims about one pair *)

(** C1, as the code has it: in the incremental mode the stubs are located
    exactly once per pair, as the first call of the pair and on the task's
    original code; no later call of the pair, whatever its outcome, locates
    stubs again. *)
Theorem incremental_locates_once im task w :
  ∃ tr,
    calls (incremental_pair im task w).2
      = calls w ++ CallGetTodoMethods (code task) :: tr ∧
    locate_calls tr = [] ∧
    locate_calls (drop (length (calls w)) (calls (incremental_pair im task w).2))
      = [code task].
Proof.
  rewrite incremental_pair_view.
  destruct (stub_pair_calls (λ _, True) id im task w) as (tr & _ & _ & Hc & Hall);
    [done|].
  apply loop_call_no_locate in Hall.
  exists tr. split; [done|]. split; [done|].
  rewrite Hc, drop_app_length. simpl. by rewrite Hall.
Qed.

(** C2, as the code has it: the [seq] and [rev] orderings change nothing
    at all and hand the loop the list itself or a reversed iterator over
    it; the [rand] ordering draws random numbers and overwrites the list
    object it is given with a permutation of its content, and changes
    nothing else.  In every mode the loop then receives [traversal] of the
    list's former content. *)
Theorem order_effects im l w :
  (order im l w).1
    = inr (match im with rev_mode => ReversedIterator l | _ => ListObject l end) ∧
  data (order im l w).2 = data w ∧
  output (order im l w).2 = output w ∧
  queries (order im l w).2 = queries w ∧
  calls (order im l w).2 = calls w ∧
  (iterate (match im with rev_mode => ReversedIterator l | _ => ListObject l end)
     (order im l w).2).1
    = inr (traversal im (default [] (heap w !! l)) (draws w)) ∧
  match im with
  | rand_mode =>
      heap (order im l w).2
        = <[l := (shuffle (default [] (heap w !! l)) (draws w)).1]> (heap w) ∧
      (shuffle (default [] (heap w !! l)) (draws w)).1
        ≡ₚ default [] (heap w !! l)
  | _ => (order im l w).2 = w
  end.
Proof.
  destruct im; simpl; try done.
  unfold random_shuffle, mbind, M_bind, bind, mret, M_ret, ret, iterate.
  destruct (shuffle (default [] (heap w !! l)) (draws w)) as [x' d'] eqn:Hsh.
  simpl. rewrite lookup_insert_eq. simpl.
  repeat split; try done.
  change x' with (x', d').1. rewrite <- Hsh. apply shuffle_Permutation.
Qed.


(** C6: when a pair completes in the incremental mode, the stubs were
    processed in the locator's order for [seq], in the reverse of it for
    [rev], and in a permutation of it for [rand], one [mediate] entry
    each; and the [i]-th isolation was made on the running buffer, that is
    the task's code with the extracted results of the [i] stubs processed
    before it spliced in. *)
Theorem incremental_pair_spec im task w s w' :
  incremental_pair im task w = (inr s, w') →
  ∃ todos items tr ms result,
    get_todo_methods (code task) = inr todos ∧
    items = traversal im todos (draws w) ∧
    match im with
    | seq_mode => items = todos
    | rev_mode => items = reverse todos
    | rand_mode => items ≡ₚ todos
    end ∧
    s = ComposedSample (task_id task) (target task) result ms ∧
    mediate_key <$> ms = todo_key <$> items ∧
    calls w' = calls w ++ CallGetTodoMethods (code task) :: tr ∧
    length (retain_calls tr) = length items ∧
    (∀ i m, ms !! i = Some m →
       ∃ buffer, splice_all (code task) (take i ms) = inr buffer ∧
                 retain_calls tr !! i = Some (buffer, m_name m, m_seq m)) ∧
    splice_all (code task) ms = inr result.
Proof.
  rewrite incremental_pair_view.
  intros (todos & tr & ms & r' & Hloc & Hrun & -> & _ & _ & _ & Hc)%stub_pair_inr.
  exists todos, (traversal im todos (draws w)), tr, ms, r'.
  split; [done|]. split; [done|].
  split.
  { destruct im; simpl; try done. apply shuffle_Permutation. }
  split; [done|].
  split; [by eapply stub_run_keys|].
  split; [done|].
  destruct (stub_run_retain _ _ _ _ _ _ _ _ Hrun) as [Hlen Hret].
  split; [done|]. split; [done|].
  by eapply stub_run_splice_all.
Qed.

(** C8: when a pair completes in the independent or the incremental
    mode, [mediate] has one entry for each stub the locator found in the
    task's code when the pair began; the entries stand in the order in
    which the stubs were processed, and the [i]-th entry holds the name
    and seq of the [i]-th stub processed and the prompt and completion
    that the model call made for it returned. *)
Theorem mediate_spec a task w s w' :
  mode a ≠ holistic →
  process_pair a task w = (inr s, w') →
  ∃ todos tr ms result,
    get_todo_methods (code task) = inr todos ∧
    s = ComposedSample (task_id task) (target task) result ms ∧
    length ms = length todos ∧
    mediate_key <$> ms ≡ₚ todo_key <$> todos ∧
    calls w' = calls w ++ CallGetTodoMethods (code task) :: tr ∧
    (λ c, (c.1.2, c.2)) <$> retain_calls tr = mediate_key <$> ms ∧
    length (query_calls tr) = length ms ∧
    ∀ i m, ms !! i = Some m →
      ∃ src source sq,
        retain_calls tr !! i = Some (src, m_name m, sq) ∧
        retain_todo_method src (m_name m) (m_seq m) = inr source ∧
        query_calls tr !! i = Some (source, code_context task) ∧
        model_client (queries w + i) source (code_context task)
          = inr (m_prompt m, m_completion m).
Proof.
  intros Hmode Hp.
  assert (∃ view im, stub_pair view im task w = (inr s, w'))
    as (view & im & Hsp).
  { unfold process_pair in Hp. destruct (mode a); [done|..].
    - rewrite independent_pair_view in Hp. eauto.
    - rewrite incremental_pair_view in Hp. eauto. }
  apply stub_pair_inr in Hsp
    as (todos & tr & ms & r' & Hloc & Hrun & -> & _ & _ & _ & Hc).
  exists todos, tr, ms, r'.
  pose proof (stub_run_keys _ _ _ _ _ _ _ _ Hrun) as Hkeys.
  pose proof (stub_run_length _ _ _ _ _ _ _ _ Hrun) as Hlen.
  pose proof (traversal_Permutation im todos (draws w)) as Hperm.
  split; [done|]. split; [done|].
  split; [by rewrite Hlen, Hperm|].
  split; [by rewrite Hkeys, Hperm|].
  split; [done|].
  split; [by rewrite Hkeys; eapply stub_run_retain_keys|].
  destruct (stub_run_query _ _ _ _ _ _ _ _ Hrun) as [Hql Hq].
  split; [by rewrite Hql, Hlen|done].
Qed.

(** C10: for a task in whose code the locator finds no stub, the
    independent and the incremental mode complete the pair with the
    locating call as their only call, hence without a model call, and the
    sample has the task's code as completion and an empty [mediate]. *)
Theorem no_stub_pair a task w :
  mode a ≠ holistic →
  get_todo_methods (code task) = inr [] →
  (process_pair a task w).1
    = inr (ComposedSample (task_id task) (target task) (code task) []) ∧
  calls (process_pair a task w).2
    = calls w ++ [CallGetTodoMethods (code task)] ∧
  query_calls (calls (process_pair a task w).2) = query_calls (calls w) ∧
  queries (process_pair a task w).2 = queries w.
Proof.
  intros Hmode Hloc.
  assert (∃ view im, process_pair a task w = stub_pair view im task w)
    as (view & im & ->).
  { unfold process_pair. destruct (mode a); [done|..].
    - rewrite independent_pair_view. eauto.
    - rewrite incremental_pair_view. eauto. }
  rewrite stub_pair_unfold, locate_order_iterate, Hloc.
  assert (traversal im [] (draws w) = []) as ->.
  { apply Permutation_nil_r, traversal_Permutation. }
  destruct (located_frame im (code task) [] w) as (_ & _ & Hq & Hc).
  simpl. rewrite Hc. split; [done|]. split; [done|]. split; [|done].
  unfold query_calls. by rewrite omap_app, app_nil_r.
Qed.

(** ** The claims about a run *)

(** *** The pairs *)

Lemma range_length n : length (range n) = Z.to_nat n.
Proof. unfold range. by rewrite length_fmap, length_seq. Qed.

Lemma range_lookup n j :
  (j < Z.to_nat n)%nat → range n !! j = Some (Z.of_nat j).
Proof.
  intros Hj. unfold range. rewrite list_lookup_fmap, lookup_seq_lt; done.
Qed.

Lemma product_cons {A B} (x : A) (xs : list A) (ys : list B) :
  product (x :: xs) ys = (pair x <$> ys) ++ product xs ys.
Proof. reflexivity. Qed.

Lemma product_length {A B} (xs : list A) (ys : list B) :
  length (product xs ys) = (length xs * length ys)%nat.
Proof.
  induction xs as [|x xs IH]; [done|].
  rewrite product_cons, length_app, length_fmap, IH. simpl. lia.
Qed.

(** Task-major order: the pair of the [i]-th task and the [j]-th sample
    index stands at position [i * len(ys) + j]. *)
Lemma product_lookup {A B} (xs : list A) (ys : list B) i j x y :
  xs !! i = Some x → ys !! j = Some y →
  product xs ys !! (i * length ys + j)%nat = Some (x, y).
Proof.
  revert i. induction xs as [|x0 xs IH]; intros [|i] Hx Hy; try done.
  - injection Hx as ->.
    change (0 * length ys + j)%nat with j.
    rewrite product_cons, lookup_app_l.
    + by rewrite list_lookup_fmap, Hy.
    + rewrite length_fmap. by eapply lookup_lt_Some.
  - rewrite product_cons, lookup_app_r; rewrite length_fmap; [|lia].
    replace (S i * length ys + j - length ys)%nat
      with (i * length ys + j)%nat by lia.
    by apply IH.
Qed.

(** *** Checkpoints *)

Lemma write_calls_app tr1 tr2 :
  write_calls (tr1 ++ tr2) = write_calls tr1 ++ write_calls tr2.
Proof. apply omap_app. Qed.

(** The lists written during a checkpointed log grow by one sample per
    write, from the list the run started with. *)
Lemma checkpoint_log_writes samples tr final :
  checkpoint_log samples tr final →
  ∃ new, final = samples ++ new ∧
         write_calls tr
           = (λ i, samples ++ take (S i) new) <$> seq 0 (length new).
Proof.
  induction 1 as [samples|samples cs s tr final Hcs Hlog (new & -> & IH)].
  - exists []. by rewrite app_nil_r.
  - exists (s :: new). split; [by rewrite <- app_assoc|].
    rewrite write_calls_app, Hcs.
    change (write_calls (CallWriteJsonl (samples ++ [s]) :: tr))
      with ((samples ++ [s]) :: write_calls tr).
    rewrite IH.
    change (seq 0 (length (s :: new))) with (0%nat :: seq 1 (length new)).
    rewrite fmap_cons, <- fmap_S_seq, <- list_fmap_compose.
    simpl. f_equal. apply list_fmap_ext. intros _ i _. simpl.
    by rewrite <- app_assoc.
Qed.

(** What [inference] reads back from the output of a finished or aborted
    loop. *)
Lemma load_samples_after w w' samples new :
  load_samples w = samples →
  output w' = match new with [] => output w | _ => Some (samples ++ new) end →
  load_samples w' = samples ++ new.
Proof.
  unfold load_samples. intros Hw ->.
  destruct new; [by rewrite app_nil_r|done].
Qed.

(** C3: the pairs of a run are the product of the loaded tasks with
    [range(num_sample)], the pair of the [i]-th task and sample index [j]
    standing at position [i * num_sample + j]; a run that reaches its end
    processes these pairs from position [k] on, where [k] is the number of
    samples found at startup, and appends one sample for each of them, in
    that order.  At the end the larger of [k] and [T * N] samples exist,
    in memory and in the output: exactly [T * N] for a run started with
    nothing persisted, or resumed with no more than [T * N] samples. *)
Theorem cartesian_order a w samples w' :
  inference a w = (inr samples, w') →
  (∀ i j, (i < length (data w))%nat → (j < Z.to_nat (num_sample a))%nat →
     ∃ task, data w !! i = Some task ∧
       all_pairs a (data w) !! (i * Z.to_nat (num_sample a) + j)%nat
         = Some (task, Z.of_nat j)) ∧
  length (all_pairs a (data w))
    = (length (data w) * Z.to_nat (num_sample a))%nat ∧
  pending_pairs a w = drop (length (load_samples w)) (all_pairs a (data w)) ∧
  ∃ new,
    samples = load_samples w ++ new ∧
    Forall2 sample_of (pending_pairs a w) new ∧
    load_samples w' = samples ∧
    length samples
      = (length (load_samples w)
         `max` (length (data w) * Z.to_nat (num_sample a)))%nat.
Proof.
  intros Hrun.
  assert (Hlen : length (all_pairs a (data w))
                 = (length (data w) * Z.to_nat (num_sample a))%nat).
  { unfold all_pairs. by rewrite product_length, range_length. }
  split.
  { intros i j Hi Hj.
    destruct (lookup_lt_is_Some_2 (data w) i Hi) as [task Htask].
    exists task. split; [done|]. unfold all_pairs.
    rewrite <- (range_length (num_sample a)).
    apply product_lookup; [done|]. by apply range_lookup. }
  split; [done|]. split; [done|].
  unfold inference in Hrun.
  destruct (outer_loop a (pending_pairs a w) (load_samples w) w)
    as (new & tr & rest & _ & _ & _ & _ & Hout & Hall & Hres).
  rewrite Hrun in Hout, Hres. simpl in Hout, Hres.
  destruct Hres as (-> & Hnew & _).
  rewrite Hnew, firstn_all in Hall.
  exists new. split; [done|]. split; [done|].
  split; [by eapply load_samples_after|].
  rewrite length_app, Hnew.
  unfold pending_pairs, islice_from. rewrite length_drop, Hlen. lia.
Qed.

(** The outer loop, completed or not: the pairs [done] complete in turn,
    each sample appended and written, up to the world [wm]; there the loop
    either ends or meets the pair that raises. *)
Lemma outer_loop_run a pairs : ∀ samples w,
  ∃ done todo final wm,
    pairs = done ++ todo ∧
    pairs_run a done samples w final wm ∧
    match (for_each (pair_body a) pairs samples w).1 with
    | inr f =>
        todo = [] ∧ f = final ∧
        (for_each (pair_body a) pairs samples w).2 = wm
    | inl e =>
        ∃ p later,
          todo = p :: later ∧
          process_pair a p.1 wm
            = (inl e, (for_each (pair_body a) pairs samples w).2)
    end.
Proof.
  induction pairs as [|p pairs IH]; intros samples w.
  - exists [], [], samples, w. simpl. split; [done|]. by split; [constructor|].
  - rewrite for_each_cons, pair_body_unfold.
    destruct (process_pair a p.1 w) as [[e|s] w1] eqn:Hp.
    + exists [], (p :: pairs), samples, w. simpl.
      split; [done|]. split; [constructor|]. by exists p, pairs.
    + destruct (IH (samples ++ [s])
                  (set_output (Some (samples ++ [s]))
                     (log (CallWriteJsonl (samples ++ [s])) w1)))
        as (done & todo & final & wm & -> & Hrun & Hres).
      exists (p :: done), todo, final, wm.
      split; [done|]. split; [by eapply pairs_run_cons|done].
Qed.

(** The log and the output of the pairs that completed. *)
Lemma pairs_run_checkpoints a pairs samples w final wm :
  pairs_run a pairs samples w final wm →
  ∃ new tr,
    final = samples ++ new ∧
    length new = length pairs ∧
    calls wm = calls w ++ tr ∧
    checkpoint_log samples tr (samples ++ new) ∧
    output wm = match new with [] => output w | _ => Some (samples ++ new) end ∧
    Forall2 sample_of pairs new.
Proof.
  induction 1 as [samples w|p pairs samples w s w1 final wm Hp Hrun
                    (new & tr & -> & Hlen & Hc & Hlog & Hout & Hall)].
  - exists [], []. rewrite !app_nil_r. by repeat split; constructor.
  - destruct (process_pair_frame a p.1 w) as (cs & _ & Ho1 & Hc1 & Hcs).
    rewrite Hp in Ho1, Hc1. simpl in Ho1, Hc1.
    exists (s :: new), (cs ++ CallWriteJsonl (samples ++ [s]) :: tr).
    rewrite <- app_assoc in Hlog. simpl in Hlog.
    split; [by rewrite <- app_assoc|].
    split; [simpl; by rewrite Hlen|].
    split; [rewrite Hc; simpl; rewrite Hc1, <- !app_assoc; done|].
    split; [by apply checkpoint_pair|].
    split.
    { rewrite Hout. destruct new; simpl; [done|]. by rewrite <- app_assoc. }
    constructor; [|done].
    destruct p as [task i]. by eapply process_pair_sample_of.
Qed.

(** C4: in every run, completed or aborted, the pending pairs split into
    the pairs [done] that completed and the pairs [todo] that did not.
    The pairs of [done] ran in turn as [pairs_run] says: each one from the
    world the write of its predecessor left, and when it returned its
    sample the list in memory was extended by exactly that sample and
    written out whole before the next pair began.  [new] are the samples
    so appended, one for each pair of [done], and [wm] is the world after
    the last of these writes.  A run that reaches its end has [todo]
    empty, ends in [wm] and returns the samples found at startup followed
    by [new].  A run that raises has the raising pair first in [todo];
    that pair ran from [wm] and the run ended in the very world in which
    it raised, so nothing of it was appended or written.  Hence the log is
    a checkpointed log [tr], followed by calls [rest] none of which
    writes; the [i]-th list written holds the samples found at startup
    followed by those of the first [i + 1] completed pairs, and the output
    at the end holds the samples found at startup followed by those of
    all completed pairs. *)
Theorem checkpoint_discipline a w :
  ∃ new tr rest done todo wm,
    pending_pairs a w = done ++ todo ∧
    length new = length done ∧
    pairs_run a done (load_samples w) w (load_samples w ++ new) wm ∧
    calls wm = calls w ++ tr ∧
    calls (inference a w).2 = calls wm ++ rest ∧
    output (inference a w).2 = output wm ∧
    calls (inference a w).2 = calls w ++ tr ++ rest ∧
    checkpoint_log (load_samples w) tr (load_samples w ++ new) ∧
    write_calls rest = [] ∧
    write_calls (tr ++ rest)
      = (λ i, load_samples w ++ take (S i) new) <$> seq 0 (length new) ∧
    Forall2 sample_of (take (length new) (pending_pairs a w)) new ∧
    output (inference a w).2
      = match new with [] => output w | _ => Some (load_samples w ++ new) end ∧
    load_samples (inference a w).2 = load_samples w ++ new ∧
    match (inference a w).1 with
    | inr final =>
        todo = [] ∧ final = load_samples w ++ new ∧ rest = [] ∧
        (inference a w).2 = wm
    | inl e =>
        ∃ p later,
          todo = p :: later ∧
          process_pair a p.1 wm = (inl e, (inference a w).2)
    end.
Proof.
  unfold inference.
  destruct (outer_loop_run a (pending_pairs a w) (load_samples w) w)
    as (done & todo & final & wm & Hsplit & Hrun & Hres).
  destruct (pairs_run_checkpoints _ _ _ _ _ _ Hrun)
    as (new & tr & -> & Hlen & Hc & Hlog & Hout & Hall).
  assert (∃ rest,
    calls (for_each (pair_body a) (pending_pairs a w) (load_samples w) w).2
      = calls wm ++ rest ∧
    write_calls rest = [] ∧
    output (for_each (pair_body a) (pending_pairs a w) (load_samples w) w).2
      = output wm ∧
    match (for_each (pair_body a) (pending_pairs a w) (load_samples w) w).1 with
    | inr _ => rest = []
    | inl _ => True
    end) as (rest & Hcr & Hrest & Hor & Hrnil).
  { destruct (for_each (pair_body a) (pending_pairs a w) (load_samples w) w).1
      as [e|f].
    - destruct Hres as (p & later & _ & Hp).
      destruct (process_pair_frame a p.1 wm) as (cs & _ & Ho1 & Hc1 & Hcs).
      rewrite Hp in Ho1, Hc1. simpl in Ho1, Hc1. by exists cs.
    - destruct Hres as (_ & _ & ->). exists []. by rewrite app_nil_r. }
  exists new, tr, rest, done, todo, wm.
  split; [done|]. split; [done|]. split; [done|]. split; [done|].
  split; [done|]. split; [done|].
  split; [by rewrite Hcr, Hc, <- app_assoc|].
  split; [done|]. split; [done|].
  split.
  { destruct (checkpoint_log_writes _ _ _ Hlog) as (new' & Heq & Hw).
    apply app_inv_head in Heq as <-.
    by rewrite write_calls_app, Hrest, app_nil_r. }
  split.
  { by rewrite Hsplit, Hlen, take_app_length. }
  split; [by rewrite Hor|].
  split.
  { eapply load_samples_after; [done|]. by rewrite Hor. }
  destruct (for_each (pair_body a) (pending_pairs a w) (load_samples w) w).1
    as [e|f]; [done|].
  by destruct Hres as (-> & -> & ->).
Qed.

(** C7: a pair that raises ends the loop at once, with its exception and
    in the world in which it was raised: nothing catches it, nothing is
    written and no later pair is started.  When a run ends with an
    exception, that exception was raised by a pair of the run in this way;
    the output then holds the samples found at startup followed by those
    of the pairs completed before, and a run started on that output with
    the same tasks has the failed pair as its first pair and processes it
    as any pair, from the task alone. *)
Theorem abort_and_resume a w e w' :
  inference a w = (inl e, w') →
  (∀ p later samples w0 e0 w1,
     process_pair a p.1 w0 = (inl e0, w1) →
     for_each (pair_body a) (p :: later) samples w0 = (inl e0, w1)) ∧
  ∃ new p later wm,
    load_samples w' = load_samples w ++ new ∧
    Forall2 sample_of (take (length new) (pending_pairs a w)) new ∧
    drop (length new) (pending_pairs a w) = p :: later ∧
    process_pair a p.1 wm = (inl e, w') ∧
    output wm = output w' ∧
    ∀ w2, data w2 = data w → output w2 = output w' →
      pending_pairs a w2 = p :: later ∧
      inference a w2
        = match process_pair a p.1 w2 with
          | (inl e2, w3) => (inl e2, w3)
          | (inr s, w3) =>
              for_each (pair_body a) later (load_samples w' ++ [s])
                (set_output (Some (load_samples w' ++ [s]))
                   (log (CallWriteJsonl (load_samples w' ++ [s])) w3))
          end.
Proof.
  intros Hrun. split.
  { intros p later samples w0 e0 w1 Hp.
    by rewrite for_each_cons, pair_body_unfold, Hp. }
  unfold inference in Hrun.
  destruct (outer_loop a (pending_pairs a w) (load_samples w) w)
    as (new & tr & rest & _ & _ & _ & _ & Hout & Hall & Hres).
  rewrite Hrun in Hout, Hres. simpl in Hout, Hres.
  destruct Hres as (p & later & wm & Hdrop & Hproc & Howm & _).
  exists new, p, later, wm.
  assert (Hload : load_samples w' = load_samples w ++ new)
    by by eapply load_samples_after.
  split; [done|]. split; [done|]. split; [done|]. split; [done|].
  split; [done|].
  intros w2 Hd2 Ho2.
  assert (Hpend : pending_pairs a w2 = p :: later).
  { unfold pending_pairs, islice_from, load_samples in *.
    rewrite Hd2, Ho2, Hload, length_app, <- drop_drop. done. }
  split; [done|].
  unfold inference. rewrite Hpend, for_each_cons, pair_body_unfold.
  unfold load_samples. rewrite Ho2.
  by destruct (process_pair a p.1 w2) as [[e2|s] w3].
Qed.

(** C9: when a run has reached its end, a run with the same arguments and
    tasks on the output it left appends no sample, makes no call at all
    and leaves the world, and so the output, as it found it. *)
Theorem resume_idempotent a w samples w' w2 :
  inference a w = (inr samples, w') →
  data w2 = data w →
  output w2 = output w' →
  inference a w2 = (inr samples, w2).
Proof.
  intros Hrun Hd2 Ho2. unfold inference in *.
  destruct (outer_loop a (pending_pairs a w) (load_samples w) w)
    as (new & tr & rest & _ & _ & _ & _ & Hout & _ & Hres).
  rewrite Hrun in Hout, Hres. simpl in Hout, Hres.
  destruct Hres as (-> & Hnew & _).
  assert (Hload : load_samples w' = load_samples w ++ new)
    by by eapply load_samples_after.
  assert (Hload2 : load_samples w2 = load_samples w ++ new).
  { unfold load_samples in *. by rewrite Ho2. }
  assert (pending_pairs a w2 = []) as ->.
  { unfold pending_pairs, islice_from in *.
    rewrite Hd2, Hload2, length_app, <- drop_drop.
    apply drop_ge. lia. }
  simpl. by rewrite Hload2.
Qed.

(** ** Further properties of a run *)

(** *** Completed outer loops *)

Lemma outer_loop_inr a pairs : ∀ samples w final w',
  for_each (pair_body a) pairs samples w = (inr final, w') →
  pairs_run a pairs samples w final w'.
Proof.
  induction pairs as [|p pairs IH]; intros samples w final w' Hrun.
  - injection Hrun as <- <-. constructor.
  - rewrite for_each_cons, pair_body_unfold in Hrun.
    destruct (process_pair a p.1 w) as [[e|s] w1] eqn:Hp; [done|].
    eapply pairs_run_cons; [done|]. by apply IH.
Qed.

Lemma pairs_run_samples a pairs samples w final w' :
  pairs_run a pairs samples w final w' →
  ∃ new, final = samples ++ new ∧ length new = length pairs.
Proof.
  induction 1 as [samples w|p pairs samples w s w1 final w' Hp Hrun (new & -> & Hlen)].
  - exists []. by rewrite app_nil_r.
  - exists (s :: new). rewrite <- app_assoc. simpl. by rewrite Hlen.
Qed.

Lemma query_calls_app tr1 tr2 :
  query_calls (tr1 ++ tr2) = query_calls tr1 ++ query_calls tr2.
Proof. apply omap_app. Qed.

(** A completed pair makes [pair_cost] model calls. *)
Lemma process_pair_cost a task w s w1 :
  process_pair a task w = (inr s, w1) →
  queries w1 = (queries w + pair_cost a task)%nat ∧
  ∃ tr, calls w1 = calls w ++ tr ∧ length (query_calls tr) = pair_cost a task.
Proof.
  unfold process_pair, pair_cost, stub_count. destruct (mode a).
  - unfold holistic_pair, mbind, M_bind, bind, query.
    destruct (model_client _ _ _) as [e|[prompt outputs]]; [done|].
    intros [= <- <-]. simpl. split; [lia|]. by eexists [_].
  - rewrite independent_pair_view.
    intros (todos & tr & ms & r' & -> & Hrun & _ & _ & _ & Hq & Hc)%stub_pair_inr.
    split; [done|]. exists (CallGetTodoMethods (code task) :: tr).
    split; [done|]. simpl.
    by destruct (stub_run_query _ _ _ _ _ _ _ _ Hrun) as [-> _].
  - rewrite incremental_pair_view.
    intros (todos & tr & ms & r' & -> & Hrun & _ & _ & _ & Hq & Hc)%stub_pair_inr.
    split; [done|]. exists (CallGetTodoMethods (code task) :: tr).
    split; [done|]. simpl.
    destruct (stub_run_query _ _ _ _ _ _ _ _ Hrun) as [-> _].
    apply Permutation_length, traversal_Permutation.
Qed.

Lemma pairs_run_cost a pairs samples w final w' :
  pairs_run a pairs samples w final w' →
  queries w' = (queries w + sum_list_with (λ p, pair_cost a p.1) pairs)%nat ∧
  ∃ tr, calls w' = calls w ++ tr ∧
        length (query_calls tr) = sum_list_with (λ p, pair_cost a p.1) pairs.
Proof.
  induction 1 as [samples w|p pairs samples w s w1 final w' Hp Hrun
                    (Hq & tr & Hc & Hlen)].
  - simpl. split; [lia|]. exists []. by rewrite app_nil_r.
  - apply process_pair_cost in Hp as (Hq1 & tr1 & Hc1 & Hlen1).
    simpl in *. split; [lia|].
    exists (tr1 ++ CallWriteJsonl (samples ++ [s]) :: tr). split.
    + rewrite Hc, Hc1, <- !app_assoc. done.
    + rewrite query_calls_app, length_app, Hlen1.
      change (query_calls (CallWriteJsonl (samples ++ [s]) :: tr))
        with (query_calls tr).
      by rewrite Hlen.
Qed.

(** X3: a run that reaches its end has made, for every pair it processed,
    one model call in the holistic mode and as many model calls as the
    locator finds stubs in the task's code in the other modes, and no
    other model call. *)
Theorem model_call_budget a w samples w' :
  inference a w = (inr samples, w') →
  queries w'
    = (queries w + sum_list_with (λ p, pair_cost a p.1) (pending_pairs a w))%nat ∧
  length (query_calls (calls w'))
    = (length (query_calls (calls w))
       + sum_list_with (λ p, pair_cost a p.1) (pending_pairs a w))%nat.
Proof.
  intros Hrun%outer_loop_inr.
  apply pairs_run_cost in Hrun as (Hq & tr & Hc & Hlen).
  split; [done|]. by rewrite Hc, query_calls_app, length_app, Hlen.
Qed.

(** X4: when the output already holds at least as many samples as the run
    has pairs (in particular when there is no task or [num_sample] is not
    positive), [inference] does nothing: no call is made, nothing is
    written (no output file is created, no surplus sample is removed) and
    the world is left as it was. *)
Theorem nothing_pending a w :
  (length (data w) * Z.to_nat (num_sample a) ≤ length (load_samples w))%nat →
  inference a w = (inr (load_samples w), w).
Proof.
  intros Hk. unfold inference.
  assert (pending_pairs a w = []) as ->; [|done].
  unfold pending_pairs, islice_from. apply drop_ge.
  unfold all_pairs. by rewrite product_length, range_length.
Qed.

(** X5: when pairs are left, the run takes up at the task of index
    [k / num_sample] with sample index [k mod num_sample], where [k] is the
    number of samples found at startup, and [T * num_sample - k] pairs are
    left. *)
Theorem resume_position a w :
  (length (load_samples w) < length (data w) * Z.to_nat (num_sample a))%nat →
  ∃ task,
    data w !! (length (load_samples w) / Z.to_nat (num_sample a))%nat
      = Some task ∧
    head (pending_pairs a w)
      = Some (task,
              Z.of_nat (length (load_samples w) `mod` Z.to_nat (num_sample a))) ∧
    length (pending_pairs a w)
      = (length (data w) * Z.to_nat (num_sample a) - length (load_samples w))%nat.
Proof.
  set (k := length (load_samples w)). set (n := Z.to_nat (num_sample a)).
  intros Hk.
  assert (Hn : n ≠ 0%nat) by lia.
  assert (Hi : (k / n < length (data w))%nat).
  { apply Nat.Div0.div_lt_upper_bound. lia. }
  assert (Hj : (k `mod` n < n)%nat) by by apply Nat.mod_upper_bound.
  destruct (lookup_lt_is_Some_2 (data w) _ Hi) as [task Htask].
  exists task. split; [done|].
  unfold pending_pairs, islice_from, all_pairs. split.
  - rewrite head_lookup, lookup_drop, Nat.add_0_r. fold k.
    pose proof (product_lookup (data w) (range (num_sample a)) _ _ _ _
                  Htask (range_lookup _ _ Hj)) as Hl.
    rewrite range_length in Hl. rewrite <- Hl. f_equal.
    fold n. rewrite (Nat.div_mod_eq k n) at 1. apply Nat.add_cancel_r, Nat.mul_comm.
  - by rewrite length_drop, product_length, range_length.
Qed.

(** *** The holistic mode *)

Lemma holistic_pair_unfold task w :
  holistic_pair task w =
    match model_client (queries w) (code task) (code_context task) with
    | inl e =>
        (inl e, set_queries (S (queries w))
                  (log (CallQuery (code task) (code_context task)) w))
    | inr (prompt, outputs) =>
        (inr (HolisticSample (task_id task) (target task) prompt outputs),
         set_queries (S (queries w))
           (log (CallQuery (code task) (code_context task)) w))
    end.
Proof.
  unfold holistic_pair, mbind, M_bind, bind, query.
  by destruct (model_client _ _ _) as [e|[prompt outputs]].
Qed.

Lemma holistic_loop_calls a pairs :
  mode a = holistic → ∀ samples w,
  ∃ tr, calls (for_each (pair_body a) pairs samples w).2 = calls w ++ tr ∧
        Forall model_or_write tr.
Proof.
  intros Hmode. induction pairs as [|p pairs IH]; intros samples w.
  - exists []. by rewrite app_nil_r.
  - rewrite for_each_cons, pair_body_unfold.
    unfold process_pair. rewrite Hmode, holistic_pair_unfold.
    destruct (model_client _ _ _) as [e|[prompt outputs]].
    + eexists [_]. split; [done|]. by repeat constructor.
    + match goal with
      | |- context [for_each _ _ ?s ?w1] => destruct (IH s w1) as (tr & -> & Hall)
      end.
      eexists (_ :: _ :: tr). simpl. rewrite <- !app_assoc. split; [done|].
      by repeat constructor.
Qed.

Lemma holistic_pairs_run a pairs samples w final w' :
  mode a = holistic →
  pairs_run a pairs samples w final w' →
  ∃ new tr,
    final = samples ++ new ∧
    calls w' = calls w ++ tr ∧
    query_calls tr = (λ p, (code p.1, code_context p.1)) <$> pairs ∧
    ∀ i p, pairs !! i = Some p →
      ∃ prompt outputs,
        model_client (queries w + i) (code p.1) (code_context p.1)
          = inr (prompt, outputs) ∧
        new !! i
          = Some (HolisticSample (task_id p.1) (target p.1) prompt outputs).
Proof.
  intros Hmode.
  induction 1 as [samples w|p pairs samples w s w1 final w' Hp Hrun
                    (new & tr & -> & Hc & Hq & Hnew)].
  - exists [], []. by rewrite !app_nil_r.
  - unfold process_pair in Hp. rewrite Hmode, holistic_pair_unfold in Hp.
    destruct (model_client _ _ _) as [e|[prompt outputs]] eqn:Hm; [done|].
    injection Hp as <- <-.
    exists (HolisticSample (task_id p.1) (target p.1) prompt outputs :: new),
      (CallQuery (code p.1) (code_context p.1)
         :: CallWriteJsonl
              (samples ++ [HolisticSample (task_id p.1) (target p.1)
                             prompt outputs]) :: tr).
    split; [by rewrite <- app_assoc|].
    split; [rewrite Hc; simpl; by rewrite <- !app_assoc|].
    split.
    { change (query_calls (?c :: CallWriteJsonl ?x :: tr))
        with ((code p.1, code_context p.1) :: query_calls tr).
      by rewrite Hq. }
    intros [|i] p' Hp'; simpl in *.
    + injection Hp' as <-. exists prompt, outputs.
      by rewrite Nat.add_0_r.
    + destruct (Hnew i p' Hp') as (prompt' & outputs' & Hm' & Hi).
      exists prompt', outputs'. split; [|done].
      by replace (queries w + S i)%nat with (S (queries w) + i)%nat by lia.
Qed.

(** X1: in the holistic mode a run, completed or not, makes only model
    calls and writes: the locator, the isolator, the extractor and the
    splicer are never called.  When it reaches its end, the model was
    called once for every pair to process, in order, on the task's whole
    code and its context, and the sample of the pair holds the prompt and
    the unprocessed output of that call. *)
Theorem holistic_run a w :
  mode a = holistic →
  ∃ tr,
    calls (inference a w).2 = calls w ++ tr ∧
    Forall model_or_write tr ∧
    match (inference a w).1 with
    | inl _ => True
    | inr samples =>
        ∃ new,
          samples = load_samples w ++ new ∧
          query_calls tr
            = (λ p, (code p.1, code_context p.1)) <$> pending_pairs a w ∧
          ∀ i p, pending_pairs a w !! i = Some p →
            ∃ prompt outputs,
              model_client (queries w + i) (code p.1) (code_context p.1)
                = inr (prompt, outputs) ∧
              new !! i
                = Some (HolisticSample (task_id p.1) (target p.1)
                          prompt outputs)
    end.
Proof.
  intros Hmode. unfold inference.
  destruct (holistic_loop_calls a (pending_pairs a w) Hmode (load_samples w) w)
    as (tr & Hc & Hall).
  exists tr. split; [done|]. split; [done|].
  destruct (for_each (pair_body a) (pending_pairs a w) (load_samples w) w)
    as [[e|samples] w'] eqn:Hrun; [done|].
  apply outer_loop_inr in Hrun.
  destruct (holistic_pairs_run _ _ _ _ _ _ Hmode Hrun)
    as (new & tr' & -> & Hc' & Hq & Hnew).
  simpl in Hc. rewrite Hc' in Hc. apply app_inv_head in Hc as ->.
  by exists new.
Qed.

(** *** Pairs that raise *)

Lemma stub_body_inl view task r med tm w e w' :
  stub_body view task (r, med) tm w = (inl e, w') →
  ∃ tr n,
    body_failure view (code_context task) (queries w) r tm e tr n ∧
    loop_frame w w' tr n.
Proof.
  unfold stub_body. run_M.
  destruct (retain_todo_method _ _ _) as [e1|source] eqn:Hret.
  { intros [= <- <-]. eexists [_], 0%nat.
    split; [by apply fail_retain|]. repeat split; simpl; lia. }
  destruct (model_client _ _ _) as [e1|[prompt outputs]] eqn:Hq.
  { intros [= <- <-]. eexists [_; _], 1%nat.
    split; [by eapply fail_query|].
    repeat split; simpl; [lia|by rewrite <- !app_assoc]. }
  destruct (extract_code _) as [e1|snippet] eqn:Hex.
  { intros [= <- <-]. eexists [_; _; _], 1%nat.
    split; [by eapply fail_extract|].
    repeat split; simpl; [lia|by rewrite <- !app_assoc]. }
  destruct (replace_method _ _ _ _) as [e1|r2] eqn:Hrep; [|done].
  intros [= <- <-]. eexists [_; _; _; _], 1%nat.
  split; [by eapply fail_replace|].
  repeat split; simpl; [lia|by rewrite <- !app_assoc].
Qed.

(** A loop that raises: the items before the failing one were completed. *)
Lemma stub_loop_inl view task items : ∀ r med w e w',
  for_each (stub_body view task) items (r, med) w = (inl e, w') →
  ∃ done tm rest tr ms r1 trf n,
    items = done ++ tm :: rest ∧
    stub_run view (code_context task) (queries w) r done tr ms r1 ∧
    body_failure view (code_context task) (queries w + length done) r1 tm e
      trf n ∧
    loop_frame w w' (tr ++ trf) (length done + n).
Proof.
  induction items as [|tm items IH]; intros r med w e w' Hrun; [done|].
  rewrite for_each_cons in Hrun.
  destruct (stub_body view task (r, med) tm w) as [[e1|[r1 med1]] w1] eqn:Hb.
  - injection Hrun as <- <-.
    apply stub_body_inl in Hb as (trf & n & Hfail & Hf).
    exists [], tm, items, [], [], r, trf, n.
    split; [done|]. split; [constructor|].
    rewrite Nat.add_0_r. done.
  - apply stub_body_inr in Hb
      as (source & prompt & outputs & snippet & Hret & Hq & Hex & Hrep & -> & Hf).
    apply IH in Hrun
      as (done & tm' & rest & tr & ms & r2 & trf & n & -> & Hsr & Hfail & Hf').
    assert (Hq1 : queries w1 = S (queries w)).
    { destruct Hf as (_ & _ & _ & _ & -> & _). lia. }
    rewrite Hq1 in Hsr, Hfail.
    eexists (tm :: done), tm', rest, _, _, r2, trf, n.
    split; [done|].
    split; [eapply stub_run_cons; eauto|].
    split.
    { simpl. by replace (queries w + S (length done))%nat
        with (S (queries w) + length done)%nat by lia. }
    pose proof (loop_frame_trans _ _ _ _ _ _ _ Hf Hf') as Hft.
    by simpl in *.
Qed.

Lemma process_pair_stub_view a task :
  mode a ≠ holistic →
  ∃ im, process_pair a task = stub_pair (view_of a task) im task ∧
        ∀ todos d, visit_order a todos d = traversal im todos d.
Proof.
  intros Hmode. unfold process_pair, view_of, visit_order.
  destruct (mode a); [done|..].
  - exists seq_mode. by rewrite independent_pair_view.
  - exists (incremental_mode a). by rewrite incremental_pair_view.
Qed.

(** X2: a pair of the independent or the incremental mode that raises
    stops at the first collaborator call that raises, with that exception.
    Either the locator raised, and no other call and no model call was
    made; or the stubs located were visited in order, those before the
    failing one were completed, and the iteration of the failing one ended
    at the isolation (no model call for it), at the model call, at the
    extraction or at the splice (one model call for it, whose output is
    lost).  The output is not touched. *)
Theorem pair_failure a task w e w' :
  mode a ≠ holistic →
  process_pair a task w = (inl e, w') →
  output w' = output w ∧
  ((get_todo_methods (code task) = inl e ∧
    calls w' = calls w ++ [CallGetTodoMethods (code task)] ∧
    queries w' = queries w) ∨
   (∃ todos done tm rest tr ms r trf n,
      get_todo_methods (code task) = inr todos ∧
      visit_order a todos (draws w) = done ++ tm :: rest ∧
      stub_run (view_of a task) (code_context task) (queries w) (code task)
        done tr ms r ∧
      body_failure (view_of a task) (code_context task)
        (queries w + length done) r tm e trf n ∧
      calls w' = calls w ++ CallGetTodoMethods (code task) :: tr ++ trf ∧
      queries w' = (queries w + length done + n)%nat)).
Proof.
  intros Hmode Hp.
  destruct (process_pair_stub_view a task Hmode) as (im & Heq & Hvisit).
  rewrite Heq, stub_pair_unfold, locate_order_iterate in Hp.
  destruct (get_todo_methods (code task)) as [e1|todos] eqn:Hloc.
  { injection Hp as <- <-. split; [done|]. by left. }
  destruct (located_frame im (code task) todos w) as (Hd0 & Ho0 & Hq0 & Hc0).
  destruct (for_each (stub_body (view_of a task) task)
              (traversal im todos (draws w)) (code task, [])
              (located im (code task) todos w))
    as [[e1|[r m]] w2] eqn:Hloop; [|done].
  injection Hp as <- <-.
  apply stub_loop_inl in Hloop
    as (done & tm & rest & tr & ms & r1 & trf & n & Hitems & Hsr & Hfail & Hf).
  destruct Hf as (_ & Ho & _ & _ & Hq & Hc).
  rewrite Hq0 in Hsr, Hfail, Hq.
  split; [by rewrite Ho|].
  right. exists todos, done, tm, rest, tr, ms, r1, trf, n.
  rewrite Hvisit. split; [done|]. split; [done|]. split; [done|].
  split; [done|].
  split; [by rewrite Hc, Hc0, <- app_assoc|lia].
Qed.

(** *** The two per-stub modes compared *)

Lemma located_short im src todos w :
  (length todos ≤ 1)%nat →
  located im src todos w = located seq_mode src todos w.
Proof.
  intros Hlen. destruct im; try done.
  destruct todos as [|tm [|tm' todos]]; [..|simpl in Hlen; lia];
    unfold located; simpl; unfold set_draws, set_heap; simpl;
    by rewrite insert_insert_eq.
Qed.

(** X6: on a task in whose code the locator finds at most one stub, or
    raises, the incremental mode, in each of its orderings, does exactly
    what the independent mode does: same result or exception, same calls,
    same world. *)
Theorem single_stub_modes_agree im task w :
  (stub_count task ≤ 1)%nat →
  incremental_pair im task w = independent_pair task w.
Proof.
  unfold stub_count. intros Hcount.
  rewrite incremental_pair_view, independent_pair_view.
  rewrite !stub_pair_unfold, !locate_order_iterate.
  destruct (get_todo_methods (code task)) as [e|todos]; [done|].
  rewrite (located_short im) by done.
  destruct todos as [|tm [|tm' todos]]; [..|simpl in Hcount; lia].
  - assert (traversal im [] (draws w) = []) as ->
      by apply Permutation_nil_r, traversal_Permutation.
    reflexivity.
  - assert (traversal im [tm] (draws w) = [tm]) as ->
      by apply Permutation_singleton_r, traversal_Permutation.
    reflexivity.
Qed.

(** In a loop that isolates from a fixed source, the model is asked about
    the isolation of each item from that source. *)
Lemma stub_run_const_queries c ctx q r items tr ms r' :
  stub_run (λ _, c) ctx q r items tr ms r' →
  Forall2 (λ tm qc, retain_todo_method c (todo_name tm) (todo_seq tm)
                      = inr qc.1 ∧ qc.2 = ctx)
    items (query_calls tr).
Proof.
  induction 1 as [|q r tm items source prompt outputs snippet r1 tr ms final
                    Hret Hq Hex Hrep Hrun IH]; [constructor|].
  change (query_calls (?c1 :: CallQuery source ctx :: ?c3 :: ?c4 :: tr))
    with ((source, ctx) :: query_calls tr).
  by constructor.
Qed.

(** X7: in the independent mode the model inputs of a completed pair are
    fixed by the task: the [i]-th model call is made on the isolation of
    the [i]-th located stub from the task's original code, with the task's
    context.  So two completed runs of the pair make the same model calls,
    whatever the model answered in either. *)
Theorem independent_prompts task w1 s1 w1' w2 s2 w2' :
  independent_pair task w1 = (inr s1, w1') →
  independent_pair task w2 = (inr s2, w2') →
  query_calls (drop (length (calls w1)) (calls w1'))
    = query_calls (drop (length (calls w2)) (calls w2')) ∧
  ∃ todos,
    get_todo_methods (code task) = inr todos ∧
    Forall2 (λ tm qc, retain_todo_method (code task) (todo_name tm) (todo_seq tm)
                        = inr qc.1 ∧ qc.2 = code_context task)
      todos (query_calls (drop (length (calls w1)) (calls w1'))).
Proof.
  rewrite independent_pair_view.
  intros (todos & tr1 & ms1 & r1 & Hloc & Hrun1 & _ & _ & _ & _ & Hc1)%stub_pair_inr.
  intros (todos' & tr2 & ms2 & r2 & Hloc' & Hrun2 & _ & _ & _ & _ & Hc2)%stub_pair_inr.
  rewrite Hloc in Hloc'. injection Hloc' as <-.
  rewrite Hc1, Hc2, !drop_app_length.
  change (query_calls (CallGetTodoMethods (code task) :: ?tr))
    with (query_calls tr).
  apply stub_run_const_queries in Hrun1, Hrun2. simpl in Hrun1, Hrun2.
  split; [|by exists todos].
  clear -Hrun1 Hrun2. revert Hrun2. generalize (query_calls tr2).
  induction Hrun1 as [|tm [src1 c1] todos qs1 [Hr1 Hx1] _ IH];
    intros qs2 Hrun2; inversion Hrun2 as [|? [src2 c2] ? qs2' [Hr2 Hx2] Hrest];
    subst; [done|].
  simpl in *. rewrite Hr1 in Hr2. injection Hr2 as <-.
  f_equal; [congruence|by apply IH].
Qed.

(** *** What a run does not read *)

Lemma oblivious_ret {A} (x : A) : oblivious (ret x).
Proof.
  intros w1 w2 Hs. split_and!; try done.
  exists []. by rewrite !app_nil_r.
Qed.

Lemma oblivious_bind {A B} (m : M A) (k : A → M B) :
  oblivious m → (∀ x, oblivious (k x)) → oblivious (bind m k).
Proof.
  intros Hm Hk w1 w2 Hs. unfold bind.
  destruct (Hm w1 w2 Hs) as (Hres & Hs' & Ho1 & Ho2 & tr & Hc1 & Hc2).
  destruct (m w1) as [[e1|x1] w1'], (m w2) as [[e2|x2] w2']; simpl in *;
    try done.
  - injection Hres as <-. split_and!; try done. by exists tr.
  - injection Hres as <-.
    destruct (Hk x1 w1' w2' Hs') as (Hres' & Hs'' & Ho1' & Ho2' & tr' & Hc1' & Hc2').
    split_and!; try done; try congruence.
    exists (tr ++ tr'). by rewrite Hc1', Hc2', Hc1, Hc2, <- !app_assoc.
Qed.

Lemma oblivious_invoke {A} c (r : exn + A) : oblivious (invoke c r).
Proof.
  intros w1 w2 Hs. split_and!; try done. by exists [c].
Qed.

Lemma oblivious_query src ctx : oblivious (query src ctx).
Proof.
  intros w1 w2 (Hd & Hh & Hr & Hq). unfold query, same_inputs. simpl.
  rewrite Hq. split_and!; try done. by eexists [_].
Qed.

Lemma oblivious_alloc_list x : oblivious (alloc_list x).
Proof.
  intros w1 w2 (Hd & Hh & Hr & Hq). unfold alloc_list, same_inputs. simpl.
  rewrite Hh. split_and!; try done.
  exists []. by rewrite !app_nil_r.
Qed.

Lemma oblivious_order im l : oblivious (order im l).
Proof.
  destruct im; try apply oblivious_ret.
  intros w1 w2 (Hd & Hh & Hr & Hq).
  unfold order, random_shuffle, mbind, M_bind, bind, mret, M_ret, ret,
    same_inputs.
  rewrite Hh, Hr.
  destruct (shuffle (default [] (heap w2 !! l)) (draws w2)) as [x' d']. simpl.
  split_and!; try done.
  exists []. by rewrite !app_nil_r.
Qed.

Lemma oblivious_iterate it : oblivious (iterate it).
Proof.
  intros w1 w2 (Hd & Hh & Hr & Hq). unfold iterate, same_inputs. simpl.
  rewrite Hh. split_and!; try done.
  exists []. by rewrite !app_nil_r.
Qed.

Lemma oblivious_for_each {A S} (body : S → A → M S) xs :
  (∀ st x, oblivious (body st x)) → ∀ st, oblivious (for_each body xs st).
Proof.
  intros Hbody. induction xs as [|x xs IH]; intros st; simpl.
  - apply oblivious_ret.
  - apply oblivious_bind; [apply Hbody|apply IH].
Qed.

Ltac oblivious_steps :=
  repeat first
    [ apply oblivious_ret
    | apply oblivious_invoke
    | apply oblivious_query
    | apply oblivious_alloc_list
    | apply oblivious_order
    | apply oblivious_iterate
    | apply oblivious_bind; [|intros] ].

Lemma oblivious_stub_body view task st tm :
  oblivious (stub_body view task st tm).
Proof.
  destruct st as [r med].
  unfold stub_body, call_retain_todo_method, call_extract_code,
    call_replace_method, mbind, M_bind, mret, M_ret.
  oblivious_steps.
  match goal with x : (string * string)%type |- _ => destruct x end.
  oblivious_steps.
Qed.

Lemma oblivious_stub_pair view im task : oblivious (stub_pair view im task).
Proof.
  unfold stub_pair, call_get_todo_methods, mbind, M_bind, mret, M_ret.
  oblivious_steps.
  - apply oblivious_for_each. intros. apply oblivious_stub_body.
  - match goal with x : (string * list mediate_entry)%type |- _ => destruct x end.
    apply oblivious_ret.
Qed.

Lemma oblivious_process_pair a task : oblivious (process_pair a task).
Proof.
  unfold process_pair. destruct (mode a).
  - unfold holistic_pair, mbind, M_bind, mret, M_ret.
    oblivious_steps.
    match goal with x : (string * string)%type |- _ => destruct x end.
    apply oblivious_ret.
  - rewrite independent_pair_view. apply oblivious_stub_pair.
  - rewrite incremental_pair_view. apply oblivious_stub_pair.
Qed.

Lemma oblivious_outer_loop a pairs : ∀ s1 s2 w1 w2,
  same_inputs w1 w2 →
  ∃ new,
    match (for_each (pair_body a) pairs s1 w1).1,
          (for_each (pair_body a) pairs s2 w2).1 with
    | inr f1, inr f2 => f1 = s1 ++ new ∧ f2 = s2 ++ new
    | inl e1, inl e2 => e1 = e2
    | _, _ => False
    end ∧
    output (for_each (pair_body a) pairs s1 w1).2
      = match new with [] => output w1 | _ => Some (s1 ++ new) end ∧
    output (for_each (pair_body a) pairs s2 w2).2
      = match new with [] => output w2 | _ => Some (s2 ++ new) end ∧
    same_inputs (for_each (pair_body a) pairs s1 w1).2
                (for_each (pair_body a) pairs s2 w2).2.
Proof.
  induction pairs as [|p pairs IH]; intros s1 s2 w1 w2 Hs.
  - exists []. simpl. by rewrite !app_nil_r.
  - rewrite !for_each_cons, !pair_body_unfold.
    destruct (oblivious_process_pair a p.1 w1 w2 Hs)
      as (Hres & Hs' & Ho1 & Ho2 & _).
    destruct (process_pair a p.1 w1) as [[e1|x1] w1'],
             (process_pair a p.1 w2) as [[e2|x2] w2']; simpl in *; try done.
    + exists []. simpl. injection Hres as <-. done.
    + injection Hres as <-.
      destruct (IH (s1 ++ [x1]) (s2 ++ [x1])
                  (set_output (Some (s1 ++ [x1]))
                     (log (CallWriteJsonl (s1 ++ [x1])) w1'))
                  (set_output (Some (s2 ++ [x1]))
                     (log (CallWriteJsonl (s2 ++ [x1])) w2')))
        as (new & Hres & Hout1 & Hout2 & Hs'').
      { destruct Hs' as (? & ? & ? & ?). by split_and!. }
      exists (x1 :: new).
      split.
      { destruct (for_each _ _ (s1 ++ [x1]) _).1,
                 (for_each _ _ (s2 ++ [x1]) _).1; try done.
        by rewrite <- !app_assoc in Hres. }
      split; [|split; [|done]].
      * rewrite Hout1. destruct new; simpl; [done|]. by rewrite <- app_assoc.
      * rewrite Hout2. destruct new; simpl; [done|]. by rewrite <- app_assoc.
Qed.

(** X8: a run uses the samples found at startup only through their number.
    From two worlds that differ at most in the output file and in the log,
    with equally many samples in the output, two runs end alike, both at
    their end or both with the same exception, after appending the same
    new samples, each to the samples it found. *)
Theorem persisted_content_unread a w1 w2 :
  same_inputs w1 w2 →
  length (load_samples w1) = length (load_samples w2) →
  ∃ new,
    match (inference a w1).1, (inference a w2).1 with
    | inr f1, inr f2 =>
        f1 = load_samples w1 ++ new ∧ f2 = load_samples w2 ++ new
    | inl e1, inl e2 => e1 = e2
    | _, _ => False
    end ∧
    load_samples (inference a w1).2 = load_samples w1 ++ new ∧
    load_samples (inference a w2).2 = load_samples w2 ++ new ∧
    same_inputs (inference a w1).2 (inference a w2).2.
Proof.
  intros Hs Hlen. unfold inference.
  assert (pending_pairs a w2 = pending_pairs a w1) as ->.
  { unfold pending_pairs. destruct Hs as (-> & _). by rewrite Hlen. }
  destruct (oblivious_outer_loop a (pending_pairs a w1)
              (load_samples w1) (load_samples w2) w1 w2 Hs)
    as (new & Hres & Hout1 & Hout2 & Hs').
  exists new. split; [done|].
  split; [by eapply load_samples_after|].
  split; [by eapply load_samples_after|done].
Qed.

(** *** List objects do not outlive their pair *)

Lemma set_heap_twice h1 h2 w : set_heap h1 (set_heap h2 w) = set_heap h1 w.
Proof. reflexivity. Qed.

Lemma stub_body_set_heap view task st tm h w :
  stub_body view task st tm (set_heap h w) =
    ((stub_body view task st tm w).1,
     set_heap h (stub_body view task st tm w).2).
Proof.
  destruct st as [r med]. unfold stub_body. run_M.
  destruct (retain_todo_method _ _ _) as [e|source]; [done|].
  destruct (model_client _ _ _) as [e|[prompt outputs]]; [done|].
  destruct (extract_code _) as [e|snippet]; [done|].
  by destruct (replace_method _ _ _ _) as [e|r2].
Qed.

Lemma stub_loop_set_heap view task items : ∀ st h w,
  for_each (stub_body view task) items st (set_heap h w) =
    ((for_each (stub_body view task) items st w).1,
     set_heap h (for_each (stub_body view task) items st w).2).
Proof.
  induction items as [|tm items IH]; intros st h w; [done|].
  rewrite !for_each_cons, stub_body_set_heap.
  destruct (stub_body view task st tm w) as [[e|st1] w1]; [done|].
  simpl. apply IH.
Qed.

Lemma located_heap im src todos w :
  ∃ h, located im src todos w
       = set_heap h (set_draws (draws (located im src todos w))
                       (log (CallGetTodoMethods src) w)).
Proof. destruct im; by eexists. Qed.

Lemma located_draws im src todos h w :
  draws (located im src todos (set_heap h w)) = draws (located im src todos w).
Proof. by destruct im. Qed.

Lemma stub_pair_set_heap view im task h w :
  (stub_pair view im task (set_heap h w)).1 = (stub_pair view im task w).1 ∧
  ∃ h', set_heap h' (stub_pair view im task (set_heap h w)).2
        = set_heap h' (stub_pair view im task w).2.
Proof.
  rewrite !stub_pair_unfold, !locate_order_iterate.
  destruct (get_todo_methods (code task)) as [e|todos].
  { split; [done|]. by exists ∅. }
  change (draws (set_heap h w)) with (draws w).
  destruct (located_heap im (code task) todos w) as (h1 & ->).
  destruct (located_heap im (code task) todos (set_heap h w)) as (h2 & ->).
  rewrite located_draws.
  change (log (CallGetTodoMethods (code task)) (set_heap h w))
    with (set_heap h (log (CallGetTodoMethods (code task)) w)).
  change (set_draws ?d (set_heap h ?w0)) with (set_heap h (set_draws d w0)).
  rewrite set_heap_twice, !stub_loop_set_heap.
  match goal with
  | |- context [for_each ?b ?items ?st ?w0] =>
      destruct (for_each b items st w0) as [[e|[r m]] w2]
  end; simpl; (split; [done|]); by exists ∅.
Qed.

(** X9: a pair does not read the list objects that exist when it starts:
    started with any other heap, it ends with the same result or
    exception, makes the same calls and leaves the same output, model
    call count and random position.  In particular the list that the
    [rand] ordering shuffles in place is never seen by a later pair. *)
Theorem pair_ignores_heap a task h w :
  (process_pair a task (set_heap h w)).1 = (process_pair a task w).1 ∧
  calls (process_pair a task (set_heap h w)).2
    = calls (process_pair a task w).2 ∧
  output (process_pair a task (set_heap h w)).2
    = output (process_pair a task w).2 ∧
  queries (process_pair a task (set_heap h w)).2
    = queries (process_pair a task w).2 ∧
  draws (process_pair a task (set_heap h w)).2
    = draws (process_pair a task w).2.
Proof.
  assert (Hstub : ∀ view im,
    (stub_pair view im task (set_heap h w)).1 = (stub_pair view im task w).1 ∧
    calls (stub_pair view im task (set_heap h w)).2
      = calls (stub_pair view im task w).2 ∧
    output (stub_pair view im task (set_heap h w)).2
      = output (stub_pair view im task w).2 ∧
    queries (stub_pair view im task (set_heap h w)).2
      = queries (stub_pair view im task w).2 ∧
    draws (stub_pair view im task (set_heap h w)).2
      = draws (stub_pair view im task w).2).
  { intros view im.
    destruct (stub_pair_set_heap view im task h w) as (Hres & h' & Heq).
    split; [done|].
    split_and!.
    - by apply (f_equal calls) in Heq.
    - by apply (f_equal output) in Heq.
    - by apply (f_equal queries) in Heq.
    - by apply (f_equal draws) in Heq. }
  unfold process_pair. destruct (mode a).
  - rewrite !holistic_pair_unfold.
    change (queries (set_heap h w)) with (queries w).
    by destruct (model_client _ _ _) as [e|[prompt outputs]].
  - rewrite independent_pair_view. apply Hstub.
  - rewrite incremental_pair_view. apply Hstub.
Qed.

(** *** Locating and writing over a whole run *)

Lemma locate_calls_app tr1 tr2 :
  locate_calls (tr1 ++ tr2) = locate_calls tr1 ++ locate_calls tr2.
Proof. apply omap_app. Qed.

Lemma pairs_run_locate a pairs samples w final w' :
  mode a ≠ holistic →
  pairs_run a pairs samples w final w' →
  ∃ tr, calls w' = calls w ++ tr ∧
        locate_calls tr = (λ p, code p.1) <$> pairs.
Proof.
  intros Hmode.
  induction 1 as [samples w|p pairs samples w s w1 final w' Hp Hrun
                    (tr & Hc & Hloc)].
  - exists []. by rewrite app_nil_r.
  - destruct (process_pair_stub_view a p.1 Hmode) as (im & Heq & _).
    rewrite Heq in Hp.
    apply stub_pair_inr in Hp
      as (todos & tr1 & ms & r' & _ & Hsr & _ & _ & _ & _ & Hc1).
    apply stub_run_no_locate in Hsr.
    exists ((CallGetTodoMethods (code p.1) :: tr1)
            ++ CallWriteJsonl (samples ++ [s]) :: tr).
    split.
    + rewrite Hc. simpl. rewrite Hc1, <- !app_assoc. done.
    + rewrite locate_calls_app.
      change (locate_calls (CallGetTodoMethods (code p.1) :: tr1))
        with (code p.1 :: locate_calls tr1).
      change (locate_calls (CallWriteJsonl (samples ++ [s]) :: tr))
        with (locate_calls tr).
      by rewrite Hsr, Hloc.
Qed.

(** X10: in the independent and the incremental mode a run that reaches
    its end has called the locator exactly once for every pair it
    processed, in order, each time on the original code of the pair's
    task; nothing is kept from one sample of a task to the next. *)
Theorem locator_once_per_pair a w samples w' :
  mode a ≠ holistic →
  inference a w = (inr samples, w') →
  ∃ tr, calls w' = calls w ++ tr ∧
        locate_calls tr = (λ p, code p.1) <$> pending_pairs a w.
Proof.
  intros Hmode Hrun%outer_loop_inr. by eapply pairs_run_locate.
Qed.

Lemma sum_prefix_lengths (load new : list Sample) :
  (2 * sum_list (length <$> ((λ i, load ++ take (S i) new)
                               <$> seq 0 (length new)))
   = 2 * length new * length load + length new * (length new + 1))%nat.
Proof.
  assert (Hgen : ∀ n, (n ≤ length new)%nat →
    (2 * sum_list (length <$> ((λ i, load ++ take (S i) new) <$> seq 0 n))
     = 2 * n * length load + n * (n + 1))%nat); [|by apply Hgen].
  induction n as [|n IH]; intros Hn; [done|].
  rewrite seq_S, !fmap_app, sum_list_with_app. simpl.
  rewrite length_app, length_take. specialize (IH ltac:(lia)). nia.
Qed.

(** X11: a run that finds [k] samples at startup and completes [m] pairs
    writes the output [m] times, the [i]-th time with [k + i] samples, so
    that [m * k + m * (m + 1) / 2] samples are written in all. *)
Theorem checkpoint_volume a w samples w' :
  inference a w = (inr samples, w') →
  ∃ tr,
    calls w' = calls w ++ tr ∧
    length (write_calls tr) = length (pending_pairs a w) ∧
    (∀ i ws, write_calls tr !! i = Some ws →
       length ws = (length (load_samples w) + S i)%nat) ∧
    (2 * sum_list (length <$> write_calls tr)
     = 2 * length (pending_pairs a w) * length (load_samples w)
       + length (pending_pairs a w) * (length (pending_pairs a w) + 1))%nat.
Proof.
  intros Hrun. unfold inference in Hrun.
  destruct (outer_loop a (pending_pairs a w) (load_samples w) w)
    as (new & tr & rest & Hlog & Hc & _ & _ & _ & _ & Hres).
  rewrite Hrun in Hc, Hres. simpl in Hc, Hres.
  destruct Hres as (_ & Hlen & ->). rewrite app_nil_r in Hc.
  exists tr. split; [done|].
  destruct (checkpoint_log_writes _ _ _ Hlog) as (new' & Heq & Hw).
  apply app_inv_head in Heq as <-.
  rewrite Hw, <- Hlen.
  split; [by rewrite length_fmap, length_seq|].
  split; [|apply sum_prefix_lengths].
  intros i ws. rewrite list_lookup_fmap.
  destruct (seq 0 (length new) !! i) as [j|] eqn:Hj; [|done].
  apply lookup_seq in Hj as [-> Hi]. simpl. intros [= <-].
  rewrite length_app, length_take. lia.
Qed.

End Facts.

(** ** The claims on the small instance *)

#[local] Existing Instance ToyRuns.toy.

(** C1 as stated fails: in the incremental mode on a task with two stubs
    there are two iterations, the second on the buffer that holds the
    first result, but the only locating call is the one on the original
    code. *)
Lemma incremental_not_relocated :
  ¬ relocated_every_iteration
      (calls (incremental_pair seq_mode Toy.task1 ToyRuns.w_one).2).
Proof. unfold relocated_every_iteration. vm_compute. discriminate. Qed.

(** C2 as stated fails: after the [rand] ordering the list object that was
    given to it holds its elements in another order. *)
Lemma order_rand_mutates_input :
  heap (order rand_mode 0%nat ToyRuns.list_world).2 !! 0%nat
    ≠ heap ToyRuns.list_world !! 0%nat.
Proof. vm_compute. discriminate. Qed.

(** [incremental_pair_spec] on the two-stub task, traversed in reverse. *)
Lemma incremental_pair_spec_witness :
  incremental_pair rev_mode Toy.task1 ToyRuns.w_one
    = (inr ToyRuns.sample_rev,
       (incremental_pair rev_mode Toy.task1 ToyRuns.w_one).2) ∧
  ∃ todos items tr ms result,
    get_todo_methods (code Toy.task1) = inr todos ∧
    items = traversal rev_mode todos (draws ToyRuns.w_one) ∧
    items = reverse todos ∧
    ToyRuns.sample_rev
      = ComposedSample (task_id Toy.task1) (target Toy.task1) result ms ∧
    mediate_key <$> ms = todo_key <$> items ∧
    calls (incremental_pair rev_mode Toy.task1 ToyRuns.w_one).2
      = calls ToyRuns.w_one ++ CallGetTodoMethods (code Toy.task1) :: tr ∧
    length (retain_calls tr) = length items ∧
    (∀ i m, ms !! i = Some m →
       ∃ buffer, splice_all (code Toy.task1) (take i ms) = inr buffer ∧
                 retain_calls tr !! i = Some (buffer, m_name m, m_seq m)) ∧
    splice_all (code Toy.task1) ms = inr result.
Proof.
  split; [by vm_compute|].
  apply (incremental_pair_spec rev_mode Toy.task1 ToyRuns.w_one). by vm_compute.
Defined.

(** [mediate_spec] on the two-stub task in the incremental mode. *)
Lemma mediate_spec_witness :
  mode ToyRuns.a_abort ≠ holistic ∧
  process_pair ToyRuns.a_abort Toy.task1 ToyRuns.w_one
    = (inr (ComposedSample "t1" "T1" "f[A]g[B]"
              [mkMediate "f" 0 "ctx:f?g?" "A";
               mkMediate "g" 0 "ctx:f[A]g?" "B"]),
       (process_pair ToyRuns.a_abort Toy.task1 ToyRuns.w_one).2) ∧
  ∃ todos tr ms result,
    get_todo_methods (code Toy.task1) = inr todos ∧
    ComposedSample "t1" "T1" "f[A]g[B]"
      [mkMediate "f" 0 "ctx:f?g?" "A"; mkMediate "g" 0 "ctx:f[A]g?" "B"]
      = ComposedSample (task_id Toy.task1) (target Toy.task1) result ms ∧
    length ms = length todos ∧
    mediate_key <$> ms ≡ₚ todo_key <$> todos ∧
    calls (process_pair ToyRuns.a_abort Toy.task1 ToyRuns.w_one).2
      = calls ToyRuns.w_one ++ CallGetTodoMethods (code Toy.task1) :: tr ∧
    (λ c, (c.1.2, c.2)) <$> retain_calls tr = mediate_key <$> ms ∧
    length (query_calls tr) = length ms ∧
    ∀ i m, ms !! i = Some m →
      ∃ src source sq,
        retain_calls tr !! i = Some (src, m_name m, sq) ∧
        retain_todo_method src (m_name m) (m_seq m) = inr source ∧
        query_calls tr !! i = Some (source, code_context Toy.task1) ∧
        model_client (queries ToyRuns.w_one + i) source (code_context Toy.task1)
          = inr (m_prompt m, m_completion m).
Proof.
  split; [done|]. split; [by vm_compute|].
  apply (mediate_spec ToyRuns.a_abort Toy.task1 ToyRuns.w_one);
    [done|by vm_compute].
Defined.

(** [no_stub_pair] on the task without stubs. *)
Lemma no_stub_pair_witness :
  mode ToyRuns.a_abort ≠ holistic ∧
  get_todo_methods (code Toy.task0) = inr [] ∧
  (process_pair ToyRuns.a_abort Toy.task0 ToyRuns.w_abort).1
    = inr (ComposedSample (task_id Toy.task0) (target Toy.task0)
             (code Toy.task0) []) ∧
  calls (process_pair ToyRuns.a_abort Toy.task0 ToyRuns.w_abort).2
    = calls ToyRuns.w_abort ++ [CallGetTodoMethods (code Toy.task0)] ∧
  query_calls (calls (process_pair ToyRuns.a_abort Toy.task0 ToyRuns.w_abort).2)
    = query_calls (calls ToyRuns.w_abort) ∧
  queries (process_pair ToyRuns.a_abort Toy.task0 ToyRuns.w_abort).2
    = queries ToyRuns.w_abort.
Proof.
  split; [done|]. split; [by vm_compute|].
  apply (no_stub_pair ToyRuns.a_abort Toy.task0 ToyRuns.w_abort);
    [done|by vm_compute].
Defined.

(** [cartesian_order] on a run over two tasks that reaches its end. *)
Lemma cartesian_order_witness :
  inference ToyRuns.a_full ToyRuns.w_full
    = (inr ToyRuns.samples_full, (inference ToyRuns.a_full ToyRuns.w_full).2) ∧
  (∀ i j, (i < length (data ToyRuns.w_full))%nat →
          (j < Z.to_nat (num_sample ToyRuns.a_full))%nat →
     ∃ task, data ToyRuns.w_full !! i = Some task ∧
       all_pairs ToyRuns.a_full (data ToyRuns.w_full)
         !! (i * Z.to_nat (num_sample ToyRuns.a_full) + j)%nat
         = Some (task, Z.of_nat j)) ∧
  length (all_pairs ToyRuns.a_full (data ToyRuns.w_full))
    = (length (data ToyRuns.w_full)
       * Z.to_nat (num_sample ToyRuns.a_full))%nat ∧
  pending_pairs ToyRuns.a_full ToyRuns.w_full
    = drop (length (load_samples ToyRuns.w_full))
        (all_pairs ToyRuns.a_full (data ToyRuns.w_full)) ∧
  ∃ new,
    ToyRuns.samples_full = load_samples ToyRuns.w_full ++ new ∧
    Forall2 sample_of (pending_pairs ToyRuns.a_full ToyRuns.w_full) new ∧
    load_samples (inference ToyRuns.a_full ToyRuns.w_full).2
      = ToyRuns.samples_full ∧
    length ToyRuns.samples_full
      = (length (load_samples ToyRuns.w_full)
         `max` (length (data ToyRuns.w_full)
                * Z.to_nat (num_sample ToyRuns.a_full)))%nat.
Proof.
  split; [by vm_compute|].
  apply (cartesian_order ToyRuns.a_full ToyRuns.w_full). by vm_compute.
Defined.

(** [resume_idempotent] on the same run, started again on its own output. *)
Lemma resume_idempotent_witness :
  inference ToyRuns.a_full ToyRuns.w_full
    = (inr ToyRuns.samples_full, (inference ToyRuns.a_full ToyRuns.w_full).2) ∧
  data (inference ToyRuns.a_full ToyRuns.w_full).2 = data ToyRuns.w_full ∧
  output (inference ToyRuns.a_full ToyRuns.w_full).2
    = output (inference ToyRuns.a_full ToyRuns.w_full).2 ∧
  inference ToyRuns.a_full (inference ToyRuns.a_full ToyRuns.w_full).2
    = (inr ToyRuns.samples_full, (inference ToyRuns.a_full ToyRuns.w_full).2).
Proof.
  split; [by vm_compute|]. split; [by vm_compute|]. split; [done|].
  apply (resume_idempotent ToyRuns.a_full ToyRuns.w_full ToyRuns.samples_full
           (inference ToyRuns.a_full ToyRuns.w_full).2);
    by vm_compute.
Defined.

(** [abort_and_resume] on a run whose fourth pair lacks model answers. *)
Lemma abort_and_resume_witness :
  inference ToyRuns.a_abort ToyRuns.w_abort
    = (inl ModelClientError, (inference ToyRuns.a_abort ToyRuns.w_abort).2) ∧
  (∀ p later samples w0 e0 w1,
     process_pair ToyRuns.a_abort p.1 w0 = (inl e0, w1) →
     for_each (pair_body ToyRuns.a_abort) (p :: later) samples w0
       = (inl e0, w1)) ∧
  ∃ new p later wm,
    load_samples (inference ToyRuns.a_abort ToyRuns.w_abort).2
      = load_samples ToyRuns.w_abort ++ new ∧
    Forall2 sample_of
      (take (length new) (pending_pairs ToyRuns.a_abort ToyRuns.w_abort)) new ∧
    drop (length new) (pending_pairs ToyRuns.a_abort ToyRuns.w_abort)
      = p :: later ∧
    process_pair ToyRuns.a_abort p.1 wm
      = (inl ModelClientError, (inference ToyRuns.a_abort ToyRuns.w_abort).2) ∧
    output wm = output (inference ToyRuns.a_abort ToyRuns.w_abort).2 ∧
    ∀ w2, data w2 = data ToyRuns.w_abort →
      output w2 = output (inference ToyRuns.a_abort ToyRuns.w_abort).2 →
      pending_pairs ToyRuns.a_abort w2 = p :: later ∧
      inference ToyRuns.a_abort w2
        = match process_pair ToyRuns.a_abort p.1 w2 with
          | (inl e2, w3) => (inl e2, w3)
          | (inr s, w3) =>
              let samples :=
                load_samples (inference ToyRuns.a_abort ToyRuns.w_abort).2
                  ++ [s] in
              for_each (pair_body ToyRuns.a_abort) later samples
                (set_output (Some samples) (log (CallWriteJsonl samples) w3))
          end.
Proof.
  split; [by vm_compute|].
  apply (abort_and_resume ToyRuns.a_abort ToyRuns.w_abort). by vm_compute.
Defined.

(** ** The further properties on the small instance *)

(** [holistic_run] on a holistic run over two tasks. *)
Lemma holistic_run_witness :
  mode ToyRuns.a_holistic = holistic ∧
  ∃ tr,
    calls (inference ToyRuns.a_holistic ToyRuns.w_full).2
      = calls ToyRuns.w_full ++ tr ∧
    Forall model_or_write tr ∧
    match (inference ToyRuns.a_holistic ToyRuns.w_full).1 with
    | inl _ => True
    | inr samples =>
        ∃ new,
          samples = load_samples ToyRuns.w_full ++ new ∧
          query_calls tr
            = (λ p, (code p.1, code_context p.1))
                <$> pending_pairs ToyRuns.a_holistic ToyRuns.w_full ∧
          ∀ i p, pending_pairs ToyRuns.a_holistic ToyRuns.w_full !! i = Some p →
            ∃ prompt outputs,
              model_client (queries ToyRuns.w_full + i) (code p.1)
                (code_context p.1) = inr (prompt, outputs) ∧
              new !! i
                = Some (HolisticSample (task_id p.1) (target p.1)
                          prompt outputs)
    end.
Proof.
  split; [done|]. by apply (holistic_run ToyRuns.a_holistic ToyRuns.w_full).
Defined.

(** [pair_failure] on a pair whose second stub finds no model answer. *)
Lemma pair_failure_witness :
  mode ToyRuns.a_abort ≠ holistic ∧
  process_pair ToyRuns.a_abort Toy.task1 ToyRuns.w_late
    = (inl ModelClientError,
       (process_pair ToyRuns.a_abort Toy.task1 ToyRuns.w_late).2) ∧
  output (process_pair ToyRuns.a_abort Toy.task1 ToyRuns.w_late).2
    = output ToyRuns.w_late ∧
  ((get_todo_methods (code Toy.task1) = inl ModelClientError ∧
    calls (process_pair ToyRuns.a_abort Toy.task1 ToyRuns.w_late).2
      = calls ToyRuns.w_late ++ [CallGetTodoMethods (code Toy.task1)] ∧
    queries (process_pair ToyRuns.a_abort Toy.task1 ToyRuns.w_late).2
      = queries ToyRuns.w_late) ∨
   (∃ todos done tm rest tr ms r trf n,
      get_todo_methods (code Toy.task1) = inr todos ∧
      visit_order ToyRuns.a_abort todos (draws ToyRuns.w_late)
        = done ++ tm :: rest ∧
      stub_run (view_of ToyRuns.a_abort Toy.task1) (code_context Toy.task1)
        (queries ToyRuns.w_late) (code Toy.task1) done tr ms r ∧
      body_failure (view_of ToyRuns.a_abort Toy.task1) (code_context Toy.task1)
        (queries ToyRuns.w_late + length done) r tm ModelClientError trf n ∧
      calls (process_pair ToyRuns.a_abort Toy.task1 ToyRuns.w_late).2
        = calls ToyRuns.w_late
          ++ CallGetTodoMethods (code Toy.task1) :: tr ++ trf ∧
      queries (process_pair ToyRuns.a_abort Toy.task1 ToyRuns.w_late).2
        = (queries ToyRuns.w_late + length done + n)%nat)).
Proof.
  split; [done|]. split; [by vm_compute|].
  apply (pair_failure ToyRuns.a_abort Toy.task1 ToyRuns.w_late);
    [done|by vm_compute].
Defined.

(** [model_call_budget] on the run over two tasks that reaches its end. *)
Lemma model_call_budget_witness :
  inference ToyRuns.a_full ToyRuns.w_full
    = (inr ToyRuns.samples_full, (inference ToyRuns.a_full ToyRuns.w_full).2) ∧
  queries (inference ToyRuns.a_full ToyRuns.w_full).2
    = (queries ToyRuns.w_full
       + sum_list_with (λ p, pair_cost ToyRuns.a_full p.1)
           (pending_pairs ToyRuns.a_full ToyRuns.w_full))%nat ∧
  length (query_calls (calls (inference ToyRuns.a_full ToyRuns.w_full).2))
    = (length (query_calls (calls ToyRuns.w_full))
       + sum_list_with (λ p, pair_cost ToyRuns.a_full p.1)
           (pending_pairs ToyRuns.a_full ToyRuns.w_full))%nat.
Proof.
  split; [by vm_compute|].
  apply (model_call_budget ToyRuns.a_full ToyRuns.w_full ToyRuns.samples_full).
  by vm_compute.
Defined.

(** [nothing_pending] on a run that is asked for no sample. *)
Lemma nothing_pending_witness :
  (length (data ToyRuns.w_full) * Z.to_nat (num_sample ToyRuns.a_none)
   ≤ length (load_samples ToyRuns.w_full))%nat ∧
  inference ToyRuns.a_none ToyRuns.w_full
    = (inr (load_samples ToyRuns.w_full), ToyRuns.w_full).
Proof.
  split; [by vm_compute|].
  apply (nothing_pending ToyRuns.a_none ToyRuns.w_full). by vm_compute.
Defined.

(** [resume_position] with three of four samples persisted. *)
Lemma resume_position_witness :
  (length (load_samples ToyRuns.w_three)
   < length (data ToyRuns.w_three) * Z.to_nat (num_sample ToyRuns.a_abort))%nat ∧
  ∃ task,
    data ToyRuns.w_three
      !! (length (load_samples ToyRuns.w_three)
          / Z.to_nat (num_sample ToyRuns.a_abort))%nat = Some task ∧
    head (pending_pairs ToyRuns.a_abort ToyRuns.w_three)
      = Some (task,
              Z.of_nat (length (load_samples ToyRuns.w_three)
                        `mod` Z.to_nat (num_sample ToyRuns.a_abort))) ∧
    length (pending_pairs ToyRuns.a_abort ToyRuns.w_three)
      = (length (data ToyRuns.w_three) * Z.to_nat (num_sample ToyRuns.a_abort)
         - length (load_samples ToyRuns.w_three))%nat.
Proof.
  split; [vm_compute; lia|].
  apply (resume_position ToyRuns.a_abort ToyRuns.w_three). vm_compute. lia.
Defined.

(** [single_stub_modes_agree] on the task with one stub, shuffled. *)
Lemma single_stub_modes_agree_witness :
  (stub_count ToyRuns.task_single ≤ 1)%nat ∧
  incremental_pair rand_mode ToyRuns.task_single ToyRuns.w_one
    = independent_pair ToyRuns.task_single ToyRuns.w_one.
Proof.
  split; [vm_compute; lia|].
  apply (single_stub_modes_agree rand_mode ToyRuns.task_single ToyRuns.w_one).
  vm_compute. lia.
Defined.

(** [independent_prompts] on two runs of a pair that get different model
    answers. *)
Lemma independent_prompts_witness :
  independent_pair Toy.task1 ToyRuns.w_full
    = (inr (ComposedSample "t1" "T1" "f[A]g[B]"
              [mkMediate "f" 0 "ctx:f?g?" "A"; mkMediate "g" 0 "ctx:g?" "B"]),
       (independent_pair Toy.task1 ToyRuns.w_full).2) ∧
  independent_pair Toy.task1 ToyRuns.w_queried
    = (inr (ComposedSample "t1" "T1" "f[B]g[C]"
              [mkMediate "f" 0 "ctx:f?g?" "B"; mkMediate "g" 0 "ctx:g?" "C"]),
       (independent_pair Toy.task1 ToyRuns.w_queried).2) ∧
  query_calls (drop (length (calls ToyRuns.w_full))
                 (calls (independent_pair Toy.task1 ToyRuns.w_full).2))
    = query_calls (drop (length (calls ToyRuns.w_queried))
                     (calls (independent_pair Toy.task1 ToyRuns.w_queried).2)) ∧
  ∃ todos,
    get_todo_methods (code Toy.task1) = inr todos ∧
    Forall2 (λ tm qc, retain_todo_method (code Toy.task1)
                        (todo_name tm) (todo_seq tm) = inr qc.1 ∧
                      qc.2 = code_context Toy.task1)
      todos
      (query_calls (drop (length (calls ToyRuns.w_full))
                      (calls (independent_pair Toy.task1 ToyRuns.w_full).2))).
Proof.
  split; [by vm_compute|]. split; [by vm_compute|].
  eapply (independent_prompts Toy.task1 ToyRuns.w_full _ _ ToyRuns.w_queried);
    by vm_compute.
Defined.

(** [persisted_content_unread] on two worlds whose outputs hold one
    sample each. *)
Lemma persisted_content_unread_witness :
  same_inputs ToyRuns.w_kept1 ToyRuns.w_kept2 ∧
  length (load_samples ToyRuns.w_kept1) = length (load_samples ToyRuns.w_kept2) ∧
  ∃ new,
    match (inference ToyRuns.a_full ToyRuns.w_kept1).1,
          (inference ToyRuns.a_full ToyRuns.w_kept2).1 with
    | inr f1, inr f2 =>
        f1 = load_samples ToyRuns.w_kept1 ++ new ∧
        f2 = load_samples ToyRuns.w_kept2 ++ new
    | inl e1, inl e2 => e1 = e2
    | _, _ => False
    end ∧
    load_samples (inference ToyRuns.a_full ToyRuns.w_kept1).2
      = load_samples ToyRuns.w_kept1 ++ new ∧
    load_samples (inference ToyRuns.a_full ToyRuns.w_kept2).2
      = load_samples ToyRuns.w_kept2 ++ new ∧
    same_inputs (inference ToyRuns.a_full ToyRuns.w_kept1).2
                (inference ToyRuns.a_full ToyRuns.w_kept2).2.
Proof.
  split; [by split_and!|]. split; [done|].
  apply (persisted_content_unread ToyRuns.a_full ToyRuns.w_kept1 ToyRuns.w_kept2);
    [by split_and!|done].
Defined.

(** [locator_once_per_pair] on the run over two tasks that reaches its
    end. *)
Lemma locator_once_per_pair_witness :
  mode ToyRuns.a_full ≠ holistic ∧
  inference ToyRuns.a_full ToyRuns.w_full
    = (inr ToyRuns.samples_full, (inference ToyRuns.a_full ToyRuns.w_full).2) ∧
  ∃ tr,
    calls (inference ToyRuns.a_full ToyRuns.w_full).2
      = calls ToyRuns.w_full ++ tr ∧
    locate_calls tr
      = (λ p, code p.1) <$> pending_pairs ToyRuns.a_full ToyRuns.w_full.
Proof.
  split; [done|]. split; [by vm_compute|].
  apply (locator_once_per_pair ToyRuns.a_full ToyRuns.w_full
           ToyRuns.samples_full);
    [done|by vm_compute].
Defined.

(** [checkpoint_volume] on the same run. *)
Lemma checkpoint_volume_witness :
  inference ToyRuns.a_full ToyRuns.w_full
    = (inr ToyRuns.samples_full, (inference ToyRuns.a_full ToyRuns.w_full).2) ∧
  ∃ tr,
    calls (inference ToyRuns.a_full ToyRuns.w_full).2
      = calls ToyRuns.w_full ++ tr ∧
    length (write_calls tr)
      = length (pending_pairs ToyRuns.a_full ToyRuns.w_full) ∧
    (∀ i ws, write_calls tr !! i = Some ws →
       length ws = (length (load_samples ToyRuns.w_full) + S i)%nat) ∧
    (2 * sum_list (length <$> write_calls tr)
     = 2 * length (pending_pairs ToyRuns.a_full ToyRuns.w_full)
         * length (load_samples ToyRuns.w_full)
       + length (pending_pairs ToyRuns.a_full ToyRuns.w_full)
         * (length (pending_pairs ToyRuns.a_full ToyRuns.w_full) + 1))%nat.
Proof.
  split; [by vm_compute|].
  apply (checkpoint_volume ToyRuns.a_full ToyRuns.w_full ToyRuns.samples_full).
  by vm_compute.
Defined.
